(** * lsmi-ps3: PS3 controller to MIDI translation

    A shallow embedding of [src/lsmi-ps3.c]: the mapping table [map], the
    override parser [parse_map], and the event loop of [main], followed by the
    properties of the translation engine.

    C integers are integers of [Z]; conversions to a narrower or unsigned C
    type are written out ([to_int], [to_uint], [to_uchar]).  The array
    [map[22]] is a list read with [!!] and written with [<[i:=x]>]. *)

From Stdlib Require Import ZArith Lia Ascii String.
From stdpp Require Import base list strings.

Local Open Scope Z_scope.

(** ** C integer types *)

(** [int], 32 bits, two's complement.  ISO C leaves signed overflow undefined;
    the wrap-around written here is what the usual targets do.  Theorems that
    rely on an [int] result carry the hypothesis that it did not overflow. *)
Definition INT_MIN : Z := - 2 ^ 31.
Definition INT_MAX : Z := 2 ^ 31 - 1.
Definition to_int (z : Z) : Z := (z + 2 ^ 31) mod 2 ^ 32 - 2 ^ 31.

(** [unsigned int] and [unsigned char]: conversion is reduction modulo. *)
Definition to_uint (z : Z) : Z := z mod 2 ^ 32.
Definition to_uchar (z : Z) : Z := z mod 2 ^ 8.

(** ** Constants of the system headers *)

(** [linux/input-event-codes.h] *)
Definition EV_KEY : Z := 1.
Definition EV_ABS : Z := 3.

Definition BTN_SOUTH : Z := 304.      (* 0x130 *)
Definition BTN_EAST : Z := 305.       (* 0x131 *)
Definition BTN_NORTH : Z := 307.      (* 0x133 *)
Definition BTN_WEST : Z := 308.       (* 0x134 *)
Definition BTN_TL : Z := 310.         (* 0x136 *)
Definition BTN_TR : Z := 311.         (* 0x137 *)
Definition BTN_TL2 : Z := 312.        (* 0x138 *)
Definition BTN_TR2 : Z := 313.        (* 0x139 *)
Definition BTN_SELECT : Z := 314.     (* 0x13a *)
Definition BTN_START : Z := 315.      (* 0x13b *)
Definition BTN_THUMBL : Z := 317.     (* 0x13d *)
Definition BTN_THUMBR : Z := 318.     (* 0x13e *)
Definition BTN_DPAD_UP : Z := 544.    (* 0x220 *)
Definition BTN_DPAD_DOWN : Z := 545.  (* 0x221 *)
Definition BTN_DPAD_LEFT : Z := 546.  (* 0x222 *)
Definition BTN_DPAD_RIGHT : Z := 547. (* 0x223 *)

Definition ABS_X : Z := 0.
Definition ABS_Y : Z := 1.
Definition ABS_Z : Z := 2.
Definition ABS_RX : Z := 3.
Definition ABS_RY : Z := 4.
Definition ABS_RZ : Z := 5.

(** [alsa/seq_event.h] *)
Definition SND_SEQ_EVENT_NOTEON : Z := 6.
Definition SND_SEQ_EVENT_NOTEOFF : Z := 7.
Definition SND_SEQ_EVENT_CONTROLLER : Z := 10.
Definition SND_SEQ_EVENT_PGMCHANGE : Z := 11.
Definition SND_SEQ_EVENT_PITCHBEND : Z := 13.

(** The program's own macros. *)
Definition DOWN : Z := 1.
Definition UP : Z := 0.

(** ** Data *)

(** [struct input_event] without its time stamp: [type] and [code] are
    [__u16], [value] is [__s32]. *)
Record input_event := {
  type : Z;
  code : Z;
  value : Z
}.

(** [struct map_s].  The field order matters for the initialiser of [map]:
    the second field is the note or controller number, the third the channel. *)
Record map_s := {
  ev_type : Z;
  number : Z;
  channel : Z
}.

(** [snd_seq_event_t], reduced to the fields the program sets after
    [snd_seq_ev_clear]: the type tag and the note or control member of the
    [data] union.  Every other field is zero. *)
Inductive seq_data :=
  | data_note (note_channel note_note note_velocity : Z)
  | data_control (control_channel control_param control_value : Z).

Record snd_seq_event_t := {
  seq_type : Z;
  seq_data_of : seq_data
}.

(** The event-building macros of [alsa/seqmid.h].  The channel, note and
    velocity members are [unsigned char], the control value is [signed int]. *)
Definition snd_seq_ev_set_pitchbend (ch val : Z) : snd_seq_event_t :=
  {| seq_type := SND_SEQ_EVENT_PITCHBEND;
     seq_data_of := data_control (to_uchar ch) 0 (to_int val) |}.

Definition snd_seq_ev_set_noteon (ch key vel : Z) : snd_seq_event_t :=
  {| seq_type := SND_SEQ_EVENT_NOTEON;
     seq_data_of := data_note (to_uchar ch) (to_uchar key) (to_uchar vel) |}.

Definition snd_seq_ev_set_pgmchange (ch val : Z) : snd_seq_event_t :=
  {| seq_type := SND_SEQ_EVENT_PGMCHANGE;
     seq_data_of := data_control (to_uchar ch) 0 (to_int val) |}.

(** The messages as the specification writes them. *)
Definition NoteOn (ch num vel : Z) : snd_seq_event_t :=
  {| seq_type := SND_SEQ_EVENT_NOTEON; seq_data_of := data_note ch num vel |}.
Definition PitchBend (ch val : Z) : snd_seq_event_t :=
  {| seq_type := SND_SEQ_EVENT_PITCHBEND; seq_data_of := data_control ch 0 val |}.
Definition ProgramChange (ch val : Z) : snd_seq_event_t :=
  {| seq_type := SND_SEQ_EVENT_PGMCHANGE; seq_data_of := data_control ch 0 val |}.

(** The channel an output message is addressed to. *)
Definition seq_channel (ev : snd_seq_event_t) : Z :=
  match seq_data_of ev with
  | data_note ch _ _ => ch
  | data_control ch _ _ => ch
  end.

(** ** The mapping table *)

(** [struct map_s map[22]], lines 93-133. *)
Definition map : list map_s := [
  (* face *)
  {| ev_type := SND_SEQ_EVENT_NOTEON; number := 48; channel := 0 |};
  {| ev_type := SND_SEQ_EVENT_NOTEON; number := 52; channel := 0 |};
  {| ev_type := SND_SEQ_EVENT_NOTEON; number := 55; channel := 0 |};
  {| ev_type := SND_SEQ_EVENT_NOTEON; number := 60; channel := 0 |};
  (* dpad *)
  {| ev_type := SND_SEQ_EVENT_NOTEON; number := 64; channel := 0 |};
  {| ev_type := SND_SEQ_EVENT_NOTEON; number := 67; channel := 0 |};
  {| ev_type := SND_SEQ_EVENT_NOTEON; number := 72; channel := 0 |};
  {| ev_type := SND_SEQ_EVENT_NOTEON; number := 76; channel := 0 |};
  (* triggers *)
  {| ev_type := SND_SEQ_EVENT_NOTEON; number := 79; channel := 0 |};
  {| ev_type := SND_SEQ_EVENT_NOTEON; number := 84; channel := 0 |};
  {| ev_type := SND_SEQ_EVENT_NOTEON; number := 50; channel := 0 |};
  {| ev_type := SND_SEQ_EVENT_NOTEON; number := 55; channel := 0 |};
  (* sticks *)
  {| ev_type := SND_SEQ_EVENT_NOTEON; number := 59; channel := 0 |};
  {| ev_type := SND_SEQ_EVENT_NOTEON; number := 62; channel := 0 |};
  (* sticks xy *)
  {| ev_type := SND_SEQ_EVENT_PITCHBEND; number := 0; channel := 0 |};
  {| ev_type := SND_SEQ_EVENT_PITCHBEND; number := 1; channel := 0 |};
  {| ev_type := SND_SEQ_EVENT_PITCHBEND; number := 2; channel := 0 |};
  {| ev_type := SND_SEQ_EVENT_PITCHBEND; number := 3; channel := 0 |};
  (* trigger pressure *)
  {| ev_type := SND_SEQ_EVENT_NOTEON; number := 77; channel := 0 |};
  {| ev_type := SND_SEQ_EVENT_NOTEON; number := 81; channel := 0 |};
  (* start select *)
  {| ev_type := SND_SEQ_EVENT_PGMCHANGE; number := 81; channel := 0 |};
  {| ev_type := SND_SEQ_EVENT_PGMCHANGE; number := 81; channel := 0 |}
].

(** ** The event loop of [main] *)

(** The [switch ( iev.code )] of lines 364-405: the slot index [i], or [None]
    for the [default: continue]. *)
Definition switch_code (c : Z) : option nat :=
  if c =? BTN_NORTH then Some 0%nat
  else if c =? BTN_SOUTH then Some 1%nat
  else if c =? BTN_EAST then Some 2%nat
  else if c =? BTN_WEST then Some 3%nat
  else if c =? BTN_DPAD_UP then Some 4%nat
  else if c =? BTN_DPAD_DOWN then Some 5%nat
  else if c =? BTN_DPAD_RIGHT then Some 6%nat
  else if c =? BTN_DPAD_LEFT then Some 7%nat
  else if c =? BTN_TR then Some 8%nat
  else if c =? BTN_TL then Some 9%nat
  else if c =? BTN_TR2 then Some 10%nat
  else if c =? BTN_TL2 then Some 11%nat
  else if c =? BTN_THUMBR then Some 12%nat
  else if c =? BTN_THUMBL then Some 13%nat
  else if c =? ABS_X then Some 14%nat
  else if c =? ABS_Y then Some 15%nat
  else if c =? ABS_RX then Some 16%nat
  else if c =? ABS_RY then Some 17%nat
  else if c =? ABS_Z then Some 18%nat
  else if c =? ABS_RZ then Some 19%nat
  else if c =? BTN_SELECT then Some 20%nat
  else if c =? BTN_START then Some 21%nat
  else None.

(** Lines 361-405 together: the type test, then the switch on the code. *)
Definition classify (ty c : Z) : option nat :=
  if negb (ty =? EV_KEY) && negb (ty =? EV_ABS) then None
  else switch_code c.

(** The code that the switch sends to each slot, in slot order. *)
Definition slot_code : list Z := [
  BTN_NORTH; BTN_SOUTH; BTN_EAST; BTN_WEST;
  BTN_DPAD_UP; BTN_DPAD_DOWN; BTN_DPAD_RIGHT; BTN_DPAD_LEFT;
  BTN_TR; BTN_TL; BTN_TR2; BTN_TL2;
  BTN_THUMBR; BTN_THUMBL;
  ABS_X; ABS_Y; ABS_RX; ABS_RY;
  ABS_Z; ABS_RZ;
  BTN_SELECT; BTN_START
].

(** The domain each physical control reports in: buttons are key events,
    sticks and trigger pressure are axis events. *)
Definition slot_domain (i : nat) : Z :=
  if (14 <=? i)%nat && (i <=? 19)%nat then EV_ABS else EV_KEY.

(** What one [read( fd, &iev, sizeof( iev ) )] does: it either fills the
    buffer with the next event or fails and leaves the buffer as it was. *)
Inductive read_result :=
  | ReadOk (e : input_event)
  | ReadFail.

(** The variables the loop works on: the counter [pgm] and the buffer [iev].
    The table is only read by the loop and is passed as an argument. *)
Record state := {
  pgm : Z;
  iev : input_event
}.

Definition read (r : read_result) (st : state) : state :=
  match r with
  | ReadOk e => {| pgm := pgm st; iev := e |}
  | ReadFail => st
  end.

(** Modelled from the spec: [send_event] is declared in [seq.h], which is not
    among the sources; it dispatches the event to the output consumer.  A call
    is recorded as the action [send_event ev].  The other thing a cycle can do
    to the outside is the "Internal error" line of [stderr]. *)
Inductive action :=
  | send_event (ev : snd_seq_event_t)
  | internal_error (t : Z).

Definition sent (a : action) : option snd_seq_event_t :=
  match a with
  | send_event ev => Some ev
  | internal_error _ => None
  end.

(** The expression [(iev.value * 64) - 8192] of line 413, in [int]. *)
Definition pitchbend_value (v : Z) : Z := to_int (to_int (v * 64) - 8192).

(** The values for which neither the product nor the difference leaves
    [int]. *)
Definition pitchbend_in_int (v : Z) : Prop :=
  INT_MIN + 8192 <= v * 64 <= INT_MAX.

(** The [switch ( ev.type = map[i].ev_type )] of lines 409-442.  The member
    [ev.type] is an [unsigned char], and the switch is on the value assigned
    to it.  Line 428 lacks its semicolon; the statements are taken line by
    line.  [snd_seq_drain_output] flushes the sequencer's output buffer and
    is not part of the model. *)
Definition synthesize (slot : map_s) (st : state) : state * list action :=
  let v := value (iev st) in
  let ty := to_uchar (ev_type slot) in
  if ty =? SND_SEQ_EVENT_PITCHBEND then
    (st, [send_event
            (snd_seq_ev_set_pitchbend (channel slot) (pitchbend_value v))])
  else if ty =? SND_SEQ_EVENT_NOTEON then
    (st, [send_event
            (snd_seq_ev_set_noteon (channel slot) (number slot)
               (if v =? DOWN then 127 else 0))])
  else if ty =? SND_SEQ_EVENT_PGMCHANGE then
    if v =? 1 then
      let p := to_int (pgm st + 1) in
      ({| pgm := p; iev := iev st |},
       [send_event (snd_seq_ev_set_pgmchange (channel slot) p)])
    else (st, [])
  else (st, [internal_error ty]).

(** One turn of the [for ( ;; )] of lines 355-443.  The result of [read] is
    not looked at.  The switch only yields indices below 22, so [map[i]]
    exists whenever the table has its 22 entries. *)
Definition loop_body (m : list map_s) (r : read_result) (st : state)
  : state * list action :=
  let st := read r st in
  match classify (type (iev st)) (code (iev st)) with
  | None => (st, [])
  | Some i =>
      match m !! i with
      | Some slot => synthesize slot st
      | None => (st, [])
      end
  end.

(** The loop, run over the results of its first reads. *)
Fixpoint main_loop (m : list map_s) (rs : list read_result) (st : state)
  : state * list action :=
  match rs with
  | [] => (st, [])
  | r :: rs' =>
      let '(st1, out1) := loop_body m r st in
      let '(st2, out2) := main_loop m rs' st1 in
      (st2, out1 ++ out2)
  end.

(** The events a run sent, in order. *)
Definition output (m : list map_s) (rs : list read_result) (st : state)
  : list snd_seq_event_t :=
  omap sent (snd (main_loop m rs st)).

(** The state at the top of the loop: [pgm] is 0 and [iev] is an
    uninitialised automatic variable. *)
Definition start (iev0 : input_event) : state := {| pgm := 0; iev := iev0 |}.

Definition Key (c v : Z) : read_result :=
  ReadOk {| type := EV_KEY; code := c; value := v |}.
Definition Axis (c v : Z) : read_result :=
  ReadOk {| type := EV_ABS; code := c; value := v |}.

(** ** The override parser *)

(** [sscanf( s, "%1[cn]:%u:%u", ... )] as ISO C describes [fscanf] for this
    format: a scanset of width one, literal colons, and two [%u] conversions,
    each of which skips white space, takes an optional sign and then the
    longest run of decimal digits.  The number is converted as by [strtoul]
    and the result stored in an [unsigned int].  ISO C leaves a number too
    large for the type undefined; what is written here is what the C library
    of the usual targets does, with an [unsigned long] of 64 bits. *)
Module Scanf.

(** [strtoul] on a digit string of value [v], with or without a minus sign
    before it: [ULONG_MAX] when the number does not fit [unsigned long],
    otherwise the number, negated in [unsigned long] after a minus sign. *)
Definition ULONG_MAX : Z := 2 ^ 64 - 1.

Definition strtoul (neg : bool) (v : Z) : Z :=
  if ULONG_MAX <? v then ULONG_MAX
  else if neg then (- v) mod 2 ^ 64 else v.

(** What [%u] stores: the result of [strtoul] converted to
    [unsigned int]. *)
Definition stored (neg : bool) (v : Z) : Z := to_uint (strtoul neg v).

Definition isspace (c : ascii) : bool :=
  let n := nat_of_ascii c in
  (n =? 32)%nat || ((9 <=? n)%nat && (n <=? 13)%nat).

Definition isdigit (c : ascii) : bool :=
  let n := nat_of_ascii c in
  (48 <=? n)%nat && (n <=? 57)%nat.

Definition digit_value (c : ascii) : Z := Z.of_nat (nat_of_ascii c) - 48.

Definition add_digit (acc : Z) (c : ascii) : Z := 10 * acc + digit_value c.

Arguments isspace : simpl never.
Arguments isdigit : simpl never.
Arguments add_digit : simpl never.

Fixpoint skip_space (s : list ascii) : list ascii :=
  match s with
  | c :: s' => if isspace c then skip_space s' else s
  | [] => []
  end.

(** The longest run of digits at the head of [s], accumulated onto [acc]. *)
Fixpoint digits (acc : Z) (s : list ascii) : Z * list ascii :=
  match s with
  | c :: s' =>
      if isdigit c then digits (add_digit acc c) s' else (acc, s)
  | [] => (acc, [])
  end.

(** A directive either consumes input and yields a value, or fails. *)
Definition conv_u (s : list ascii) : option (Z * list ascii) :=
  let s1 := skip_space s in
  let '(neg, s2) :=
    match s1 with
    | c :: s' =>
        if Ascii.eqb c "-" then (true, s')
        else if Ascii.eqb c "+" then (false, s')
        else (false, s1)
    | [] => (false, [])
    end in
  match s2 with
  | c :: _ =>
      if isdigit c then
        let '(v, rest) := digits 0 s2 in
        Some (stored neg v, rest)
      else None
  | [] => None
  end.

Definition conv_cn (s : list ascii) : option (ascii * list ascii) :=
  match s with
  | c :: s' =>
      if Ascii.eqb c "c" || Ascii.eqb c "n" then Some (c, s') else None
  | [] => None
  end.

Definition colon (s : list ascii) : option (list ascii) :=
  match s with
  | c :: s' => if Ascii.eqb c ":" then Some s' else None
  | [] => None
  end.

(** How far the call got: the values assigned so far.  [scan_eof] is an
    input failure before the first conversion. *)
Inductive scan :=
  | scan_eof
  | scan_0
  | scan_1 (t : ascii)
  | scan_2 (t : ascii) (ch : Z)
  | scan_3 (t : ascii) (ch num : Z).

(** The value the call returns. *)
Definition ret (r : scan) : Z :=
  match r with
  | scan_eof => -1
  | scan_0 => 0
  | scan_1 _ => 1
  | scan_2 _ _ => 2
  | scan_3 _ _ _ => 3
  end.

Definition sscanf (s : list ascii) : scan :=
  match s with
  | [] => scan_eof
  | _ =>
      match conv_cn s with
      | None => scan_0
      | Some (t, s1) =>
          match colon s1 ≫= conv_u with
          | None => scan_1 t
          | Some (ch, s2) =>
              match colon s2 ≫= conv_u with
              | None => scan_2 t ch
              | Some (num, _) => scan_3 t ch num
              end
          end
      end
  end.

(** The value of a digit string read from the left. *)
Definition decimal (ds : list ascii) : Z := fold_left add_digit ds 0.

(** The input a [%u] consumes, as a grammar: white space, an optional sign,
    one or more digits; and the value it stores. *)
Inductive sign : list ascii → bool → Prop :=
  | sign_none : sign [] false
  | sign_plus : sign ["+"%char] false
  | sign_minus : sign ["-"%char] true.

Inductive uint_field : list ascii → Z → Prop :=
  | uint_field_intro ws sg neg ds :
      Forall (λ c, isspace c = true) ws →
      sign sg neg →
      ds ≠ [] →
      Forall (λ c, isdigit c = true) ds →
      uint_field (ws ++ sg ++ ds) (stored neg (decimal ds)).

(** What a run of white space may be followed by. *)
Definition no_space_ahead (s : list ascii) : Prop :=
  match s with
  | c :: _ => isspace c = false
  | [] => True
  end.

(** What may follow a number: anything that does not go on with a digit. *)
Definition no_digit_ahead (s : list ascii) : Prop :=
  match s with
  | c :: _ => isdigit c = false
  | [] => True
  end.

End Scanf.

(** What [parse_map] writes to [stderr]. *)
Inductive diag :=
  | applying_mapping               (* "Applying user supplied mapping..." *)
  | invalid_mapping (s : string)   (* "Invalid mapping '%s'!" *)
  | channel_range     (* "Channel numbers must be between 1 and 16!" *)
  | number_range.     (* "Controller and note numbers must be between 0 and 127!" *)

(** A function of the start-up phase either returns or calls [exit]. *)
Inductive outcome (A : Type) :=
  | returns (a : A)
  | exits (status : Z).
Arguments returns {A} a.
Arguments exits {A} status.

(** [parse_map], lines 140-167.  [sscanf] stores into [map[i].channel] and
    [map[i].number]; when it does not return 3 the process exits.  The test of
    line 161 reads [map[i].channel], after the decrement. *)
Definition parse_map (i : nat) (s : string) (m : list map_s)
  : list diag * outcome (list map_s) :=
  match Scanf.sscanf (list_ascii_of_string s) with
  | Scanf.scan_3 t ch num =>
      if (1 <=? ch) && (ch <=? 16) then
        let ch' := ch - 1 in
        let ty := if Ascii.eqb t "c" then SND_SEQ_EVENT_CONTROLLER
                  else SND_SEQ_EVENT_NOTEON in
        ([applying_mapping] ++ (if ch' >? 127 then [number_range] else []),
         returns (<[i := {| ev_type := ty; number := num; channel := ch' |}]> m))
      else ([applying_mapping; channel_range], exits 1)
  | _ => ([applying_mapping; invalid_mapping s], exits 1)
  end.

(** The override format as the specification words it: exactly three tokens
    separated by colons, the kind token [c] or [n] and two fields made of
    decimal digits only. *)
Fixpoint tokens (cur : list ascii) (s : list ascii) : list (list ascii) :=
  match s with
  | [] => [rev cur]
  | c :: s' =>
      if Ascii.eqb c ":" then rev cur :: tokens [] s' else tokens (c :: cur) s'
  end.

Definition numeric (f : list ascii) : bool :=
  match f with
  | [] => false
  | _ => forallb Scanf.isdigit f
  end.

Definition spec_format (s : string) : bool :=
  match tokens [] (list_ascii_of_string s) with
  | [[k]; f1; f2] =>
      (Ascii.eqb k "c" || Ascii.eqb k "n") && numeric f1 && numeric f2
  | _ => false
  end.

(** A buffer content for closed examples. *)
Definition no_event : input_event := {| type := 0; code := 0; value := 0 |}.

(** The four stick axes, and the channels of the messages they cause with the
    table [map]. *)
Definition stick_axes : list Z := [ABS_X; ABS_Y; ABS_RX; ABS_RY].

Definition stick_channels (v : Z) (st : state) : list Z :=
  stick_axes ≫= λ c, seq_channel <$> output map [Axis c v] st.

(** The classifier property as the specification words it: each slot is
    reached by exactly one (domain, code) pair. *)
Definition one_pair_per_slot (i : nat) : Prop :=
  ∃ p : Z * Z, classify p.1 p.2 = Some i
               ∧ ∀ q : Z * Z, classify q.1 q.2 = Some i → q = p.

(** ** What a run leaves behind *)

(** The program numbers among the actions of a run: the value of every
    program-change message sent, in order. *)
Definition pgm_value (a : action) : option Z :=
  match a with
  | send_event ev =>
      match seq_data_of ev with
      | data_control _ _ v =>
          if seq_type ev =? SND_SEQ_EVENT_PGMCHANGE then Some v else None
      | data_note _ _ _ => None
      end
  | internal_error _ => None
  end.

Definition pgm_values (out : list action) : list Z := omap pgm_value out.

(** A table entry whose channel is a MIDI channel. *)
Definition channel_ok (slot : map_s) : Prop := 0 <= channel slot <= 15.

(** ** The macros of lines 65-68 *)

Module Macros.

(** [#define min(x,min) ( (x) < (min) ? (min) : (x) )] *)
Definition min (x min : Z) : Z := if x <? min then min else x.

(** [#define max(x,max) ( (x) > (max) ? (max) : (x) )] *)
Definition max (x max : Z) : Z := if x >? max then max else x.

(** [#define testbit(bit, array) (array[bit/8] & (1<<(bit%8)))], on an array
    of [uint8_t].  Division and remainder are those of C; the program only
    uses the macro with an index inside the array. *)
Definition testbit (bit : Z) (array : list Z) : Z :=
  match array !! Z.to_nat (bit ÷ 8) with
  | Some byte => Z.land byte (Z.shiftl 1 (Z.rem bit 8))
  | None => 0
  end.

End Macros.

(** The number a capability bitmap stands for, least significant byte
    first. *)
Fixpoint bitmap_value (array : list Z) : Z :=
  match array with
  | [] => 0
  | byte :: array' => byte + 2 ^ 8 * bitmap_value array'
  end.

(** ** Start-up: [init_mouse] and [get_args] *)

(** What [init_mouse] writes to [stderr]. *)
Inductive init_line :=
  | not_a_mouse (device : string)  (* "'%s' doesn't seem to be a mouse! ..." *)
  | perror_grab.                   (* perror( "EVIOCGRAB" ) *)

(** [init_mouse], lines 275-295.  [evt] is the capability bitmap as
    [ioctl( fd, EVIOCGBIT( 0, sizeof(evt)), evt )] left it, an array of
    [EV_MAX / 8 + 1 = 4] bytes; [grab] is what [ioctl( fd, EVIOCGRAB, 1 )]
    returns when it is called. *)
Definition init_mouse (device : string) (evt : list Z) (grab : Z)
  : list init_line * outcome unit :=
  if negb (negb (Macros.testbit EV_KEY evt =? 0)
           && negb (Macros.testbit EV_ABS evt =? 0))
  then ([not_a_mouse device], exits 1)
  else if negb (grab =? 0) then ([perror_grab], exits 1)
  else ([], returns tt).

(** The global variables [get_args] assigns. *)
Record globals := {
  sub_name : option string;
  verbose : Z;
  device : string;
  daemonize : Z;
  cur_map : list map_s
}.

(** Their initial values, lines 76-84 and 93. *)
Definition globals_init : globals :=
  {| sub_name := None; verbose := 0; device := "/dev/input/event2";
     daemonize := 0; cur_map := map |}.

(** What [getopt_long] hands to the switch of [get_args]: the option
    character, with [optarg] for the options that take an argument.
    [opt_other] is any return value the switch has no case for, such as the
    ['?'] of an unknown option. *)
Inductive opt :=
  | opt_h
  | opt_p (optarg : string)
  | opt_v
  | opt_d (optarg : string)
  | opt_1 (optarg : string)
  | opt_2 (optarg : string)
  | opt_3 (optarg : string)
  | opt_z
  | opt_other.

(** What the start-up writes to [stderr]. *)
Inductive stderr_line :=
  | usage_text
  | parse_map_line (d : diag).

Definition with_map (g : globals) (m : list map_s) : globals :=
  {| sub_name := sub_name g; verbose := verbose g; device := device g;
     daemonize := daemonize g; cur_map := m |}.

(** The mapping cases of the switch: [parse_map( i, optarg )] on the global
    table, then on with the remaining options [k]. *)
Definition button_case (i : nat) (optarg : string) (g : globals)
    (k : globals → list stderr_line * outcome globals)
  : list stderr_line * outcome globals :=
  let '(log, r) := parse_map i optarg (cur_map g) in
  match r with
  | exits status => (parse_map_line <$> log, exits status)
  | returns m' =>
      let '(log', r') := k (with_map g m') in
      ((parse_map_line <$> log) ++ log', r')
  end.

(** [get_args], lines 194-245, over the options in the order [getopt_long]
    yields them. *)
Fixpoint get_args (opts : list opt) (g : globals)
  : list stderr_line * outcome globals :=
  match opts with
  | [] => ([], returns g)
  | o :: opts' =>
      match o with
      | opt_h => ([usage_text], exits 0)
      | opt_p a =>
          get_args opts'
            {| sub_name := Some a; verbose := verbose g; device := device g;
               daemonize := daemonize g; cur_map := cur_map g |}
      | opt_v =>
          get_args opts'
            {| sub_name := sub_name g; verbose := 1; device := device g;
               daemonize := daemonize g; cur_map := cur_map g |}
      | opt_d a =>
          get_args opts'
            {| sub_name := sub_name g; verbose := verbose g; device := a;
               daemonize := daemonize g; cur_map := cur_map g |}
      | opt_1 a => button_case 0 a g (get_args opts')
      | opt_2 a => button_case 1 a g (get_args opts')
      | opt_3 a => button_case 2 a g (get_args opts')
      | opt_z =>
          get_args opts'
            {| sub_name := sub_name g; verbose := verbose g; device := device g;
               daemonize := 1; cur_map := cur_map g |}
      | opt_other => get_args opts' g
      end
  end.

(** The slot a mapping option writes, if it is one. *)
Definition button_slot (o : opt) : option (nat * string) :=
  match o with
  | opt_1 a => Some (0%nat, a)
  | opt_2 a => Some (1%nat, a)
  | opt_3 a => Some (2%nat, a)
  | _ => None
  end.

(** The table entry [parse_map] builds from an option string, or [None] when
    it exits: the part of [parse_map] that does not depend on the slot. *)
Definition override_entry (s : string) : option map_s :=
  match Scanf.sscanf (list_ascii_of_string s) with
  | Scanf.scan_3 t ch num =>
      if (1 <=? ch) && (ch <=? 16) then
        Some {| ev_type := if Ascii.eqb t "c" then SND_SEQ_EVENT_CONTROLLER
                           else SND_SEQ_EVENT_NOTEON;
                number := num;
                channel := ch - 1 |}
      else None
  | _ => None
  end.

(** A table entry whose kind the switch of the loop has a case for. *)
Definition known_kind (slot : map_s) : Prop :=
  ev_type slot = SND_SEQ_EVENT_NOTEON
  ∨ ev_type slot = SND_SEQ_EVENT_PITCHBEND
  ∨ ev_type slot = SND_SEQ_EVENT_PGMCHANGE.

(** * Properties *)

(** ** Integer conversions *)

Lemma to_int_id z : INT_MIN <= z <= INT_MAX → to_int z = z.
Proof.
  unfold to_int, INT_MIN, INT_MAX. intros H.
  rewrite Z.mod_small; lia.
Qed.

Lemma to_uchar_id z : 0 <= z < 256 → to_uchar z = z.
Proof. unfold to_uchar. intros H. apply Z.mod_small. lia. Qed.

Lemma pitchbend_value_affine v :
  pitchbend_in_int v → pitchbend_value v = v * 64 - 8192.
Proof.
  unfold pitchbend_in_int, pitchbend_value, INT_MIN, INT_MAX. intros H.
  rewrite (to_int_id (v * 64)) by (unfold INT_MIN, INT_MAX; lia).
  apply to_int_id. unfold INT_MIN, INT_MAX. lia.
Qed.

Lemma pitchbend_value_range v :
  INT_MIN <= pitchbend_value v <= INT_MAX.
Proof.
  unfold pitchbend_value, to_int, INT_MIN, INT_MAX.
  pose proof (Z.mod_pos_bound (to_int (v * 64) - 8192 + 2 ^ 31) (2 ^ 32)).
  unfold to_int in *. lia.
Qed.

(** ** The classifier *)

Lemma switch_code_slot c i : switch_code c = Some i → slot_code !! i = Some c.
Proof.
  unfold switch_code.
  repeat match goal with
         | |- context [c =? ?k] =>
             destruct (Z.eqb_spec c k) as [-> | _];
             [intros [= <-]; reflexivity |]
         end.
  discriminate.
Qed.

Lemma slot_code_switch c i : slot_code !! i = Some c → switch_code c = Some i.
Proof.
  do 22 (destruct i as [| i]; [intros [= <-]; reflexivity |]).
  discriminate.
Qed.

Lemma switch_code_iff c i : switch_code c = Some i ↔ slot_code !! i = Some c.
Proof. split; [apply switch_code_slot | apply slot_code_switch]. Qed.

Lemma classify_iff ty c i :
  classify ty c = Some i
  ↔ (ty = EV_KEY ∨ ty = EV_ABS) ∧ slot_code !! i = Some c.
Proof.
  unfold classify. rewrite <- switch_code_iff.
  destruct (Z.eqb_spec ty EV_KEY), (Z.eqb_spec ty EV_ABS); simpl;
    intuition (congruence || discriminate).
Qed.

Lemma classify_lt ty c i : classify ty c = Some i → (i < 22)%nat.
Proof.
  rewrite classify_iff. intros [_ H].
  apply lookup_lt_Some in H. exact H.
Qed.

(** A table of 22 entries has an entry for every slot the classifier
    yields. *)
Lemma classify_entry (m : list map_s) ty c i :
  length m = 22%nat → classify ty c = Some i → is_Some (m !! i).
Proof.
  intros Hlen Hc. apply lookup_lt_is_Some_2.
  rewrite Hlen. apply (classify_lt ty c), Hc.
Qed.

(** ** One cycle on a mapped event *)

Lemma read_ok e st : read (ReadOk e) st = {| pgm := pgm st; iev := e |}.
Proof. reflexivity. Qed.

Lemma loop_body_mapped m e st i slot :
  classify (type e) (code e) = Some i →
  m !! i = Some slot →
  loop_body m (ReadOk e) st = synthesize slot {| pgm := pgm st; iev := e |}.
Proof.
  intros Hc Hm. unfold loop_body. rewrite read_ok. simpl.
  rewrite Hc, Hm. reflexivity.
Qed.

Lemma main_loop_cons m r rs st :
  main_loop m (r :: rs) st
  = (fst (main_loop m rs (fst (loop_body m r st))),
     snd (loop_body m r st) ++ snd (main_loop m rs (fst (loop_body m r st)))).
Proof.
  simpl. destruct (loop_body m r st) as [st1 o1]. simpl.
  destruct (main_loop m rs st1) as [st2 o2]. reflexivity.
Qed.

Lemma main_loop_app m rs1 rs2 st :
  main_loop m (rs1 ++ rs2) st
  = (fst (main_loop m rs2 (fst (main_loop m rs1 st))),
     snd (main_loop m rs1 st) ++ snd (main_loop m rs2 (fst (main_loop m rs1 st)))).
Proof.
  revert st. induction rs1 as [| r rs1 IH]; intros st.
  - simpl. destruct (main_loop m rs2 st). reflexivity.
  - rewrite <- app_comm_cons, !main_loop_cons, IH. simpl.
    rewrite app_assoc. reflexivity.
Qed.

(** Each cycle sends at most one event. *)
Lemma loop_body_at_most_one m r st :
  (length (snd (loop_body m r st)) <= 1)%nat.
Proof.
  unfold loop_body.
  destruct (classify _ _) as [i |]; simpl; [| lia].
  destruct (m !! i) as [slot |]; simpl; [| lia].
  unfold synthesize.
  repeat (destruct (_ =? _); simpl; try lia).
Qed.

(** ** Pitch bend *)

(** C1. An axis event whose slot maps to pitch bend causes exactly one
    message, a pitch bend on the slot's channel with value
    [rawValue * 64 - 8192]; the value grows with the raw value; with the
    default table, ABS_X at 0 gives PitchBend(ch=0, -8192) and at 256 gives
    PitchBend(ch=0, 8192).  The raw value is one for which the [int]
    arithmetic of line 413 does not overflow. *)
Theorem pitchbend_synthesis m st c v i slot iev0 :
  switch_code c = Some i →
  m !! i = Some slot →
  ev_type slot = SND_SEQ_EVENT_PITCHBEND →
  pitchbend_in_int v →
  loop_body m (Axis c v) st
    = ({| pgm := pgm st; iev := {| type := EV_ABS; code := c; value := v |} |},
       [send_event (PitchBend (to_uchar (channel slot)) (v * 64 - 8192))])
  ∧ (∀ v', pitchbend_in_int v' → v <= v' →
           pitchbend_value v <= pitchbend_value v')
  ∧ output map [Axis ABS_X 0] (start iev0) = [PitchBend 0 (-8192)]
  ∧ output map [Axis ABS_X 256] (start iev0) = [PitchBend 0 8192].
Proof.
  intros Hc Hm Hty Hv. repeat split.
  - unfold Axis. erewrite loop_body_mapped; [| | exact Hm].
    + unfold synthesize. rewrite Hty. simpl.
      unfold snd_seq_ev_set_pitchbend, PitchBend.
      rewrite (to_int_id _ (pitchbend_value_range v)).
      rewrite pitchbend_value_affine by exact Hv. reflexivity.
    + simpl. apply classify_iff. split; [right; reflexivity |].
      apply switch_code_slot, Hc.
  - intros v' Hv' Hle. rewrite !pitchbend_value_affine by assumption. lia.
Qed.

Lemma pitchbend_synthesis_witness :
  loop_body map (Axis ABS_X 256) (start no_event)
    = ({| pgm := 0; iev := {| type := EV_ABS; code := ABS_X; value := 256 |} |},
       [send_event (PitchBend (to_uchar 0) (256 * 64 - 8192))]).
Proof.
  refine (proj1 (pitchbend_synthesis map (start no_event) ABS_X 256 14
                   {| ev_type := SND_SEQ_EVENT_PITCHBEND; number := 0;
                      channel := 0 |} no_event _ _ _ _)).
  - reflexivity.
  - reflexivity.
  - reflexivity.
  - unfold pitchbend_in_int, INT_MIN, INT_MAX. lia.
Defined.

(** ** Note on *)

(** C2. An event whose slot maps to note-on causes exactly one message, of
    type note-on (never note-off), with velocity 127 when the raw value is 1
    and velocity 0 for every other raw value; the cycle leaves the counter as
    it was, so the same event again gives the same message. *)
Theorem noteon_synthesis m st e i slot :
  classify (type e) (code e) = Some i →
  m !! i = Some slot →
  ev_type slot = SND_SEQ_EVENT_NOTEON →
  ∃ vel,
    loop_body m (ReadOk e) st
      = ({| pgm := pgm st; iev := e |},
         [send_event (NoteOn (to_uchar (channel slot))
                             (to_uchar (number slot)) vel)])
    ∧ (value e = 1 → vel = 127)
    ∧ (value e ≠ 1 → vel = 0)
    ∧ (∀ ev, send_event ev ∈ snd (loop_body m (ReadOk e) st) →
             seq_type ev = SND_SEQ_EVENT_NOTEON
             ∧ seq_type ev ≠ SND_SEQ_EVENT_NOTEOFF)
    ∧ loop_body m (ReadOk e) (fst (loop_body m (ReadOk e) st))
      = loop_body m (ReadOk e) st.
Proof.
  intros Hc Hm Hty.
  assert (Hb : ∀ st', loop_body m (ReadOk e) st'
    = ({| pgm := pgm st'; iev := e |},
       [send_event (NoteOn (to_uchar (channel slot)) (to_uchar (number slot))
                           (if value e =? DOWN then 127 else 0))])).
  { intros st'. rewrite (loop_body_mapped _ _ _ _ _ Hc Hm).
    unfold synthesize. rewrite Hty. simpl.
    unfold snd_seq_ev_set_noteon, NoteOn.
    destruct (value e =? DOWN); reflexivity. }
  exists (if value e =? DOWN then 127 else 0).
  split; [apply Hb |]. unfold DOWN.
  split; [intros ->; reflexivity |].
  split; [intros Hne; destruct (Z.eqb_spec (value e) 1); [contradiction | reflexivity] |].
  split.
  - intros ev. rewrite Hb. simpl. intros Hin.
    apply list_elem_of_singleton in Hin. injection Hin as ->.
    split; [reflexivity | discriminate].
  - rewrite !Hb. reflexivity.
Qed.

Lemma noteon_synthesis_witness :
  ∃ vel,
    loop_body map (Key BTN_SOUTH 1) (start no_event)
      = ({| pgm := 0; iev := {| type := EV_KEY; code := BTN_SOUTH; value := 1 |} |},
         [send_event (NoteOn (to_uchar 0) (to_uchar 52) vel)])
    ∧ vel = 127.
Proof.
  destruct (noteon_synthesis map (start no_event)
              {| type := EV_KEY; code := BTN_SOUTH; value := 1 |} 1
              {| ev_type := SND_SEQ_EVENT_NOTEON; number := 52; channel := 0 |}
              eq_refl eq_refl eq_refl) as (vel & Hb & H1 & _).
  exists vel. split; [exact Hb | apply H1; reflexivity].
Defined.

(** ** Program change *)

(** C3. An event whose slot maps to program change: a press (raw value 1)
    with the counter at K sends exactly one program change carrying K+1 on the
    slot's channel and leaves the counter at K+1; any other raw value sends
    nothing and leaves the counter at K; two presses in a row count twice.
    K+1 (and K+2 for the second press) is a value of [int]. *)
Theorem pgmchange_synthesis m st e i slot K :
  classify (type e) (code e) = Some i →
  m !! i = Some slot →
  ev_type slot = SND_SEQ_EVENT_PGMCHANGE →
  pgm st = K →
  INT_MIN <= K < INT_MAX →
  (value e = 1 →
     loop_body m (ReadOk e) st
       = ({| pgm := K + 1; iev := e |},
          [send_event (ProgramChange (to_uchar (channel slot)) (K + 1))]))
  ∧ (value e ≠ 1 →
       loop_body m (ReadOk e) st = ({| pgm := K; iev := e |}, []))
  ∧ (value e = 1 → K + 1 < INT_MAX →
       main_loop m [ReadOk e; ReadOk e] st
         = ({| pgm := K + 2; iev := e |},
            [send_event (ProgramChange (to_uchar (channel slot)) (K + 1));
             send_event (ProgramChange (to_uchar (channel slot)) (K + 2))])).
Proof.
  intros Hc Hm Hty HK Hr.
  assert (Hpress : ∀ st', value e = 1 → INT_MIN <= pgm st' < INT_MAX →
    loop_body m (ReadOk e) st'
    = ({| pgm := pgm st' + 1; iev := e |},
       [send_event (ProgramChange (to_uchar (channel slot)) (pgm st' + 1))])).
  { intros st' Hv Hr'. rewrite (loop_body_mapped _ _ _ _ _ Hc Hm).
    unfold synthesize. rewrite Hty. simpl. rewrite Hv. simpl.
    unfold snd_seq_ev_set_pgmchange, ProgramChange.
    rewrite !(to_int_id (pgm st' + 1)) by lia. reflexivity. }
  split; [| split].
  - intros Hv. subst K. apply Hpress; assumption.
  - intros Hv. rewrite (loop_body_mapped _ _ _ _ _ Hc Hm).
    unfold synthesize. rewrite Hty. simpl.
    destruct (Z.eqb_spec (value e) 1); [contradiction |].
    subst K. reflexivity.
  - intros Hv Hr2. subst K. rewrite main_loop_cons.
    rewrite (Hpress st Hv Hr). simpl.
    rewrite (Hpress {| pgm := pgm st + 1; iev := e |} Hv) by (simpl; lia).
    simpl. replace (pgm st + 1 + 1) with (pgm st + 2) by lia. reflexivity.
Qed.

Lemma pgmchange_synthesis_witness :
  loop_body map (Key BTN_SELECT 1) (start no_event)
    = ({| pgm := 0 + 1;
          iev := {| type := EV_KEY; code := BTN_SELECT; value := 1 |} |},
       [send_event (ProgramChange (to_uchar 0) (0 + 1))]).
Proof.
  refine (proj1 (pgmchange_synthesis map (start no_event)
                   {| type := EV_KEY; code := BTN_SELECT; value := 1 |} 20
                   {| ev_type := SND_SEQ_EVENT_PGMCHANGE; number := 81;
                      channel := 0 |} 0 _ _ _ _ _) _).
  - reflexivity.
  - reflexivity.
  - reflexivity.
  - reflexivity.
  - unfold INT_MIN, INT_MAX. lia.
  - reflexivity.
Defined.

(** ** The default table end to end *)

(** C6. With the table [map], the reads (Key, BTN_SOUTH, 1) and then
    (Key, BTN_SOUTH, 0) make the loop send NoteOn(ch=0, num=52, vel=127) and
    then NoteOn(ch=0, num=52, vel=0), and nothing else. *)
Theorem south_button_scenario iev0 :
  snd (main_loop map [Key BTN_SOUTH 1; Key BTN_SOUTH 0] (start iev0))
  = [send_event (NoteOn 0 52 127); send_event (NoteOn 0 52 0)].
Proof. reflexivity. Qed.

(** ** The classifier and the domain of an event *)

(** C10. For Key and Axis events the slot depends on the code alone: the two
    domains classify every code alike.  A Key event with code 0 (the value of
    ABS_X) goes to the pitch-bend slot 14 and causes a pitch bend; an Axis
    event with the code of BTN_SOUTH goes to the note-on slot 1. *)
Theorem classify_ignores_domain ty1 ty2 c v iev0 :
  ty1 = EV_KEY ∨ ty1 = EV_ABS →
  ty2 = EV_KEY ∨ ty2 = EV_ABS →
  classify ty1 c = classify ty2 c
  ∧ classify ty1 c = switch_code c
  ∧ classify EV_KEY 0 = Some 14%nat
  ∧ ev_type <$> map !! 14%nat = Some SND_SEQ_EVENT_PITCHBEND
  ∧ output map [Key 0 v] (start iev0) = [PitchBend 0 (pitchbend_value v)]
  ∧ classify EV_ABS BTN_SOUTH = Some 1%nat
  ∧ ev_type <$> map !! 1%nat = Some SND_SEQ_EVENT_NOTEON.
Proof.
  intros H1 H2.
  assert (Hd : ∀ ty, ty = EV_KEY ∨ ty = EV_ABS → classify ty c = switch_code c).
  { intros ty [-> | ->]; reflexivity. }
  split; [rewrite !Hd by assumption; reflexivity |].
  split; [apply Hd, H1 |].
  repeat split.
  unfold output, Key. simpl. unfold snd_seq_ev_set_pitchbend, PitchBend.
  rewrite (to_int_id _ (pitchbend_value_range v)). reflexivity.
Qed.

Lemma classify_ignores_domain_witness :
  classify EV_KEY ABS_X = classify EV_ABS ABS_X.
Proof.
  refine (proj1 (classify_ignores_domain EV_KEY EV_ABS ABS_X 0 no_event _ _)).
  - left. reflexivity.
  - right. reflexivity.
Defined.

(** C7, as the specification words it, fails: slot 1 is reached by the pair
    (Key, BTN_SOUTH) and also by the pair (Axis, BTN_SOUTH). *)
Lemma two_pairs_reach_slot_1 :
  classify EV_KEY BTN_SOUTH = Some 1%nat
  ∧ classify EV_ABS BTN_SOUTH = Some 1%nat
  ∧ ¬ one_pair_per_slot 1.
Proof.
  split; [reflexivity |]. split; [reflexivity |].
  intros [p [_ Huniq]].
  pose proof (Huniq (EV_KEY, BTN_SOUTH) eq_refl) as Hk.
  pose proof (Huniq (EV_ABS, BTN_SOUTH) eq_refl) as Ha.
  rewrite <- Ha in Hk. discriminate Hk.
Qed.

(** C7, amended.  Each of the 22 slots is reached by exactly one code, the
    code of its physical control, and that under both domains Key and Axis and
    no other; two events classified to the same slot carry the same code; and
    every slot index the classifier yields is below 22. *)
Theorem classify_one_code_per_slot (i : nat) :
  (i < 22)%nat →
  ∃ c,
    slot_code !! i = Some c
    ∧ classify (slot_domain i) c = Some i
    ∧ (∀ ty c', classify ty c' = Some i ↔ (ty = EV_KEY ∨ ty = EV_ABS) ∧ c' = c)
    ∧ (∀ ty1 c1 ty2 c2 j,
         classify ty1 c1 = Some j → classify ty2 c2 = Some j → c1 = c2)
    ∧ (∀ ty c' j, classify ty c' = Some j → (j < 22)%nat).
Proof.
  intros Hi.
  destruct (lookup_lt_is_Some_2 slot_code i Hi) as [c Hc].
  exists c. split; [exact Hc |].
  split.
  { apply classify_iff. split; [| exact Hc].
    unfold slot_domain. destruct (_ && _); [right | left]; reflexivity. }
  split.
  { intros ty c'. rewrite classify_iff. split.
    - intros [Hty Hc']. split; [exact Hty | congruence].
    - intros [Hty ->]. split; assumption. }
  split.
  { intros ty1 c1 ty2 c2 j. rewrite !classify_iff.
    intros [_ H1] [_ H2]. congruence. }
  intros ty c' j. apply classify_lt.
Qed.

Lemma classify_one_code_per_slot_witness :
  ∃ c, slot_code !! 1%nat = Some c ∧ classify (slot_domain 1) c = Some 1%nat.
Proof.
  destruct (classify_one_code_per_slot 1 ltac:(lia)) as (c & Hc & Hcl & _).
  exists c. split; assumption.
Defined.

(** ** The stick axes *)

(** C8, as the specification words it, fails: with the table [map] the four
    stick axes all send on channel 0. *)
Lemma stick_channels_not_distinct :
  stick_channels 128 (start no_event) = [0; 0; 0; 0]
  ∧ ¬ NoDup (stick_channels 128 (start no_event)).
Proof.
  split; [reflexivity |].
  intros Hnd. change (NoDup [0; 0; 0; 0]) in Hnd.
  apply NoDup_cons in Hnd as [Hnin _].
  apply Hnin. left.
Qed.

(** C8, amended.  With the table [map], each of the four stick axes ABS_X,
    ABS_Y, ABS_RX, ABS_RY causes exactly one pitch-bend message, and all four
    send it on the same channel 0. *)
Theorem stick_axes_pitchbend_channel_0 c v st :
  c ∈ stick_axes →
  snd (loop_body map (Axis c v) st)
  = [send_event (PitchBend 0 (pitchbend_value v))].
Proof.
  intros Hin.
  assert (Hs : ∃ i, classify EV_ABS c = Some i
                    ∧ map !! i = Some {| ev_type := SND_SEQ_EVENT_PITCHBEND;
                                         number := Z.of_nat i - 14;
                                         channel := 0 |}).
  { unfold stick_axes in Hin.
    repeat (apply elem_of_cons in Hin as [-> | Hin];
            [eexists; split; reflexivity |]).
    apply elem_of_nil in Hin. contradiction. }
  destruct Hs as (i & Hc & Hm).
  unfold Axis.
  rewrite (loop_body_mapped map {| type := EV_ABS; code := c; value := v |}
             st i _ Hc Hm).
  unfold synthesize. simpl.
  unfold snd_seq_ev_set_pitchbend, PitchBend.
  rewrite (to_int_id _ (pitchbend_value_range v)). reflexivity.
Qed.

Lemma stick_axes_pitchbend_channel_0_witness :
  snd (loop_body map (Axis ABS_RY 255) (start no_event))
  = [send_event (PitchBend 0 (pitchbend_value 255))].
Proof.
  apply (stick_axes_pitchbend_channel_0 ABS_RY 255 (start no_event)).
  unfold stick_axes. apply list_elem_of_In. simpl. tauto.
Defined.

(** ** A failed read *)

(** C9, as the specification words it, fails: after a read that failed the
    loop goes through the cycle with the event of the read before, sends its
    message a second time, and carries on with the next read. *)
Lemma failed_read_is_not_fatal :
  output map [Key BTN_SOUTH 1; ReadFail; Key BTN_SOUTH 0] (start no_event)
  = [NoteOn 0 52 127; NoteOn 0 52 127; NoteOn 0 52 0]
  ∧ output map [Key BTN_SOUTH 1; ReadFail; Key BTN_SOUTH 0] (start no_event)
    ≠ output map [Key BTN_SOUTH 1] (start no_event).
Proof. split; [reflexivity | discriminate]. Qed.

(** C9, amended.  The loop does not look at the result of the read: the cycle
    of a failed read runs on the event left in the buffer exactly as if that
    event had been read again, and the loop then goes on with the reads that
    follow. *)
Theorem failed_read_reuses_buffer m st rs :
  loop_body m ReadFail st = loop_body m (ReadOk (iev st)) st
  ∧ main_loop m (ReadFail :: rs) st = main_loop m (ReadOk (iev st) :: rs) st.
Proof.
  assert (H : loop_body m ReadFail st = loop_body m (ReadOk (iev st)) st).
  { unfold loop_body. destruct st as [p e]. reflexivity. }
  split; [exact H |].
  rewrite !main_loop_cons, H. reflexivity.
Qed.

(** ** The scanner *)

Section scanf_facts.
Import Scanf.

Lemma isdigit_not_space c : isdigit c = true → isspace c = false.
Proof.
  unfold isdigit, isspace. generalize (nat_of_ascii c). intros n H.
  apply andb_true_iff in H as [H1 H2].
  apply Nat.leb_le in H1. apply Nat.leb_le in H2.
  apply orb_false_iff. split.
  - apply Nat.eqb_neq. lia.
  - apply andb_false_iff. right. apply Nat.leb_gt. lia.
Qed.

Lemma isdigit_not_sign c :
  isdigit c = true → Ascii.eqb c "-" = false ∧ Ascii.eqb c "+" = false.
Proof.
  intros H. split.
  - destruct (Ascii.eqb_spec c "-") as [-> |]; [discriminate H | reflexivity].
  - destruct (Ascii.eqb_spec c "+") as [-> |]; [discriminate H | reflexivity].
Qed.

Lemma skip_space_app ws r :
  Forall (λ c, isspace c = true) ws → no_space_ahead r →
  skip_space (ws ++ r) = r.
Proof.
  intros Hws Hr. induction Hws as [| c ws Hc _ IH]; simpl.
  - destruct r as [| c r]; [reflexivity |]. simpl in *. rewrite Hr.
    reflexivity.
  - rewrite Hc. exact IH.
Qed.

Lemma skip_space_inv s :
  ∃ ws, s = ws ++ skip_space s
        ∧ Forall (λ c, isspace c = true) ws
        ∧ no_space_ahead (skip_space s).
Proof.
  induction s as [| c s (ws & Hs & Hws & Hr)]; simpl.
  - exists []. repeat split. constructor.
  - destruct (isspace c) eqn:Hc.
    + exists (c :: ws). simpl. rewrite <- Hs.
      repeat split; [constructor; assumption | exact Hr].
    + exists []. repeat split; [constructor | exact Hc].
Qed.

Lemma digits_app acc ds r :
  Forall (λ c, isdigit c = true) ds → no_digit_ahead r →
  digits acc (ds ++ r) = (fold_left add_digit ds acc, r).
Proof.
  intros Hds Hr. revert acc.
  induction Hds as [| c ds Hc _ IH]; intros acc; simpl.
  - destruct r as [| c r]; [reflexivity |]. simpl in *. rewrite Hr.
    reflexivity.
  - rewrite Hc. apply IH.
Qed.

Lemma digits_inv s : ∀ acc v r,
  digits acc s = (v, r) →
  ∃ ds, s = ds ++ r
        ∧ Forall (λ c, isdigit c = true) ds
        ∧ v = fold_left add_digit ds acc
        ∧ no_digit_ahead r.
Proof.
  induction s as [| c s IH]; intros acc v r; simpl.
  - intros [= <- <-]. exists []. repeat split. constructor.
  - destruct (isdigit c) eqn:Hc.
    + intros H. destruct (IH _ _ _ H) as (ds & -> & Hds & -> & Hr).
      exists (c :: ds). repeat split; [constructor; assumption | exact Hr].
    + intros [= <- <-]. exists []. repeat split; [constructor | exact Hc].
Qed.

(** [%u] consumes exactly a field of the grammar and stores its value. *)
Lemma conv_u_field f v r :
  uint_field f v → no_digit_ahead r → conv_u (f ++ r) = Some (v, r).
Proof.
  intros Hf Hr. destruct Hf as [ws sg neg ds Hws Hsg Hne Hds].
  destruct ds as [| d ds]; [contradiction |].
  inversion Hds as [| ? ? Hd Hds']; subst.
  destruct (isdigit_not_sign d Hd) as [Hm Hp].
  assert (Hdig : ∀ acc, digits acc ((d :: ds) ++ r)
                        = (fold_left add_digit (d :: ds) acc, r)).
  { intros acc. apply digits_app; assumption. }
  unfold conv_u. rewrite <- !app_assoc.
  rewrite skip_space_app; [| assumption |].
  - simpl app in Hdig.
    destruct Hsg; simpl app; cbv beta iota.
    + rewrite Hm, Hp. cbv beta iota. rewrite Hd, (Hdig 0). reflexivity.
    + change (Ascii.eqb "+" "-") with false.
      change (Ascii.eqb "+" "+") with true.
      cbv beta iota. rewrite Hd, (Hdig 0). reflexivity.
    + change (Ascii.eqb "-" "-") with true.
      cbv beta iota. rewrite Hd, (Hdig 0). reflexivity.
  - destruct Hsg; simpl; try reflexivity.
    apply isdigit_not_space, Hd.
Qed.

Lemma conv_u_inv s v r :
  conv_u s = Some (v, r) →
  ∃ f, s = f ++ r ∧ uint_field f v ∧ no_digit_ahead r.
Proof.
  unfold conv_u.
  destruct (skip_space_inv s) as (ws & Hs & Hws & _).
  revert Hs. generalize (skip_space s). intros s1 ->.
  assert (Hnum : ∀ sg neg s2,
    sign sg neg →
    match s2 with
    | c :: _ =>
        if isdigit c then
          let '(v, rest) := digits 0 s2 in
          Some (stored neg v, rest)
        else None
    | [] => None
    end = Some (v, r) →
    ∃ f, ws ++ sg ++ s2 = f ++ r ∧ uint_field f v ∧ no_digit_ahead r).
  { intros sg neg s2 Hsg. destruct s2 as [| c s2]; [discriminate |].
    destruct (isdigit c) eqn:Hc; [| discriminate].
    destruct (digits 0 (c :: s2)) as [v' r'] eqn:Hd.
    intros [= <- <-].
    simpl in Hd. rewrite Hc in Hd.
    destruct (digits_inv _ _ _ _ Hd) as (ds & -> & Hds & -> & Hr).
    exists (ws ++ sg ++ c :: ds). split; [| split].
    - rewrite <- !app_assoc. reflexivity.
    - apply (uint_field_intro ws sg neg (c :: ds)); try assumption.
      + discriminate.
      + constructor; assumption.
    - exact Hr. }
  destruct s1 as [| c s1].
  - discriminate.
  - destruct (Ascii.eqb_spec c "-") as [-> | Hm].
    { apply (Hnum ["-"%char] true s1). constructor. }
    destruct (Ascii.eqb_spec c "+") as [-> | Hp].
    { apply (Hnum ["+"%char] false s1). constructor. }
    apply (Hnum [] false (c :: s1)). constructor.
Qed.

(** The call assigns all three items exactly on the inputs that begin with
    [c] or [n], a colon, a field, a colon and a second field. *)
Lemma sscanf_3_iff s t ch num :
  sscanf s = scan_3 t ch num
  ↔ ∃ f1 f2 rest,
      s = t :: ":"%char :: f1 ++ ":"%char :: f2 ++ rest
      ∧ (t = "c"%char ∨ t = "n"%char)
      ∧ uint_field f1 ch
      ∧ uint_field f2 num
      ∧ no_digit_ahead rest.
Proof.
  split.
  - unfold sscanf. destruct s as [| k s1]; [discriminate |].
    unfold conv_cn.
    destruct (Ascii.eqb k "c" || Ascii.eqb k "n") eqn:Hk; [| discriminate].
    destruct s1 as [| c1 s2]; [discriminate |]. simpl colon.
    destruct (Ascii.eqb_spec c1 ":") as [-> |]; [| discriminate].
    simpl mbind. destruct (conv_u s2) as [[ch' s3] |] eqn:H1; [| discriminate].
    destruct s3 as [| c3 s4]; [discriminate |]. simpl colon.
    destruct (Ascii.eqb_spec c3 ":") as [-> |]; [| discriminate].
    simpl mbind.
    destruct (conv_u s4) as [[num' rest] |] eqn:H2; [| discriminate].
    intros [= -> -> ->].
    destruct (conv_u_inv _ _ _ H1) as (f1 & -> & Hf1 & _).
    destruct (conv_u_inv _ _ _ H2) as (f2 & -> & Hf2 & Hr).
    exists f1, f2, rest. repeat split; try assumption.
    apply orb_true_iff in Hk as [Hk | Hk];
      apply Ascii.eqb_eq in Hk; [left | right]; exact Hk.
  - intros (f1 & f2 & rest & -> & Ht & Hf1 & Hf2 & Hr).
    unfold sscanf, conv_cn.
    assert (Hk : Ascii.eqb t "c" || Ascii.eqb t "n" = true).
    { destruct Ht as [-> | ->]; reflexivity. }
    rewrite Hk. simpl colon. simpl mbind.
    rewrite (conv_u_field f1 ch (":"%char :: f2 ++ rest) Hf1 eq_refl).
    simpl colon. simpl mbind.
    rewrite (conv_u_field f2 num rest Hf2 Hr). reflexivity.
Qed.

(** The value a field stores, by the size of its number. *)
Lemma stored_wraps neg n :
  0 <= n < 2 ^ 64 → stored neg n = (if neg then - n else n) mod 2 ^ 32.
Proof.
  intros Hn. unfold stored, strtoul, ULONG_MAX, to_uint.
  destruct (Z.ltb_spec (2 ^ 64 - 1) n) as [Hgt | _]; [lia |].
  destruct neg; [| reflexivity].
  rewrite (Z.mod_eq (- n) (2 ^ 64)) by lia.
  replace (- n - 2 ^ 64 * (- n / 2 ^ 64))
    with (- n + (- (2 ^ 32 * (- n / 2 ^ 64))) * 2 ^ 32) by lia.
  apply Z.mod_add. lia.
Qed.

Lemma stored_plain n : 0 <= n < 2 ^ 32 → stored false n = n.
Proof.
  intros Hn. rewrite stored_wraps by lia. apply Z.mod_small. lia.
Qed.

Lemma stored_saturates neg n : 2 ^ 64 <= n → stored neg n = 4294967295.
Proof.
  intros Hn. unfold stored, strtoul, ULONG_MAX.
  destruct (Z.ltb_spec (2 ^ 64 - 1) n) as [_ | Hle]; [reflexivity | lia].
Qed.

End scanf_facts.

(** ** The override parser *)

(** An override replaces one entry and keeps the table at its size. *)
Lemma parse_map_length i s m m' :
  snd (parse_map i s m) = returns m' → length m' = length m.
Proof.
  unfold parse_map.
  destruct (Scanf.sscanf _); try discriminate.
  destruct (_ && _); [| discriminate].
  simpl. intros [= <-]. apply length_insert.
Qed.

(** [parse_map] leaves in one of two ways: it returns, or it exits with
    status 1. *)
Lemma parse_map_returns_or_exits i s m :
  (∃ m', snd (parse_map i s m) = returns m')
  ∨ snd (parse_map i s m) = exits 1.
Proof.
  unfold parse_map.
  destruct (Scanf.sscanf _); try (right; reflexivity).
  destruct (_ && _); [left; eexists | right]; reflexivity.
Qed.

(** C4, as the specification words it, fails: the string "c:1:64:5" has four
    tokens, so it is not of the form kind:channel:number, and the override
    succeeds all the same. *)
Lemma extra_token_accepted :
  spec_format "c:1:64:5" = false
  ∧ length (tokens [] (list_ascii_of_string "c:1:64:5")) = 4%nat
  ∧ parse_map 0 "c:1:64:5" map
    = ([applying_mapping],
       returns (<[0%nat := {| ev_type := SND_SEQ_EVENT_CONTROLLER;
                              number := 64; channel := 0 |}]> map)).
Proof. repeat split. Qed.

(** C4, amended.  The override succeeds exactly when the string begins with
    the kind [c] or [n], a colon, a channel field, a colon and a number field,
    and the value read from the channel field is between 1 and 16.  A field is
    optional white space, an optional sign and one or more decimal digits;
    what follows the digits of the number field is not looked at.  The value
    read from a field is what [%u] stores in an [unsigned int]: the number
    itself when it has no sign and is below 2^32; in general the number,
    negated after a minus sign, reduced modulo 2^32; and 4294967295 when the
    digits stand for 2^64 or more.  On success the slot gets the kind
    (Controller for [c], NoteOn for [n]), the value read from the channel
    field minus one as its channel, and the value read from the number field
    as its number.  Every other string is fatal: the process exits with status
    1.  So "c:1:64" gives channel 0, Controller, number 64; "c:4294967297:64"
    and "c:-4294967295:64" give the same, their channel being read as 1;
    "n:1:99999999999999999999" gives number 4294967295; and "x:1:1", "c:0:64",
    "c:17:64", "c:1", "c:a:64" and "n:18446744073709551617:5" are fatal. *)
Theorem parse_map_accepts_iff i s m :
  (∀ m',
     snd (parse_map i s m) = returns m'
     ↔ ∃ k f1 ch f2 num rest,
         list_ascii_of_string s
           = k :: ":"%char :: f1 ++ ":"%char :: f2 ++ rest
         ∧ (k = "c"%char ∨ k = "n"%char)
         ∧ Scanf.uint_field f1 ch
         ∧ Scanf.uint_field f2 num
         ∧ Scanf.no_digit_ahead rest
         ∧ 1 <= ch <= 16
         ∧ m' = <[i := {| ev_type := if Ascii.eqb k "c"
                                     then SND_SEQ_EVENT_CONTROLLER
                                     else SND_SEQ_EVENT_NOTEON;
                          number := num;
                          channel := ch - 1 |}]> m)
  ∧ ((∃ m', snd (parse_map i s m) = returns m')
     ∨ snd (parse_map i s m) = exits 1)
  ∧ snd (parse_map i "c:1:64" m)
    = returns (<[i := {| ev_type := SND_SEQ_EVENT_CONTROLLER;
                         number := 64; channel := 0 |}]> m)
  ∧ snd (parse_map i "x:1:1" m) = exits 1
  ∧ snd (parse_map i "c:0:64" m) = exits 1
  ∧ snd (parse_map i "c:17:64" m) = exits 1
  ∧ snd (parse_map i "c:1" m) = exits 1
  ∧ snd (parse_map i "c:a:64" m) = exits 1
  ∧ snd (parse_map i "c:4294967297:64" m)
    = returns (<[i := {| ev_type := SND_SEQ_EVENT_CONTROLLER;
                         number := 64; channel := 0 |}]> m)
  ∧ snd (parse_map i "c:-4294967295:64" m)
    = returns (<[i := {| ev_type := SND_SEQ_EVENT_CONTROLLER;
                         number := 64; channel := 0 |}]> m)
  ∧ snd (parse_map i "n:1:99999999999999999999" m)
    = returns (<[i := {| ev_type := SND_SEQ_EVENT_NOTEON;
                         number := 4294967295; channel := 0 |}]> m)
  ∧ snd (parse_map i "n:18446744073709551617:5" m) = exits 1
  ∧ (∀ n, 0 <= n < 2 ^ 32 → Scanf.stored false n = n)
  ∧ (∀ neg n, 0 <= n < 2 ^ 64 →
              Scanf.stored neg n = (if neg then - n else n) mod 2 ^ 32)
  ∧ (∀ neg n, 2 ^ 64 <= n → Scanf.stored neg n = 4294967295).
Proof.
  split; [| split; [apply parse_map_returns_or_exits |]].
  2: { repeat (split; [reflexivity |]).
       split; [intros n Hn; apply stored_plain, Hn |].
       split; [intros neg n Hn; apply stored_wraps, Hn |].
       intros neg n Hn. apply stored_saturates, Hn. }
  intros m'. unfold parse_map. split.
  - destruct (Scanf.sscanf _) as [| | | | t ch num] eqn:Hs; try discriminate.
    destruct (Z.leb_spec 1 ch), (Z.leb_spec ch 16); simpl; try discriminate.
    intros [= <-].
    apply sscanf_3_iff in Hs as (f1 & f2 & rest & Hs & Ht & Hf1 & Hf2 & Hr).
    exists t, f1, ch, f2, num, rest.
    repeat split; (assumption || lia).
  - intros (k & f1 & ch & f2 & num & rest & Hs & Hk & Hf1 & Hf2 & Hr & Hch & ->).
    assert (H3 : Scanf.sscanf (list_ascii_of_string s) = Scanf.scan_3 k ch num).
    { apply sscanf_3_iff. exists f1, f2, rest. repeat split; assumption. }
    rewrite H3.
    destruct (Z.leb_spec 1 ch), (Z.leb_spec ch 16); simpl; try lia.
    reflexivity.
Qed.

(** A diagnostic is not among those printed. *)
Ltac not_logged :=
  let H := fresh "Hlog" in
  intros H;
  repeat (apply elem_of_cons in H as [H | H]; [discriminate H |]);
  apply elem_of_nil in H; contradiction.

(** C5.  A number above 127 ought to make the override fail, and the code
    lets it through: the message of line 163 is never printed, whatever the
    string, and the branch has no [exit]; "n:1:200" puts note 200 into slot 0
    and the loop then sends it. *)
Theorem parse_map_number_unchecked i s m :
  (number_range ∉ fst (parse_map i s m))
  ∧ parse_map 0 "n:1:200" map
    = ([applying_mapping],
       returns (<[0%nat := {| ev_type := SND_SEQ_EVENT_NOTEON;
                              number := 200; channel := 0 |}]> map))
  ∧ output (<[0%nat := {| ev_type := SND_SEQ_EVENT_NOTEON;
                          number := 200; channel := 0 |}]> map)
           [Key BTN_NORTH 1] (start no_event)
    = [NoteOn 0 200 127].
Proof.
  split; [| split; reflexivity].
  unfold parse_map.
  destruct (Scanf.sscanf _) as [| | | | t ch num]; try (simpl; not_logged).
  destruct (Z.leb_spec 1 ch) as [Hlo | Hlo];
    destruct (Z.leb_spec ch 16) as [Hhi | Hhi]; simpl; try not_logged.
  destruct (Z.gtb_spec (ch - 1) 127) as [Hgt | Hgt]; [lia | not_logged].
Qed.

(** * Further properties of the loop *)

(** Every way a cycle can end, for any table and any read. *)
Lemma loop_body_cases m r st :
  loop_body m r st = (read r st, [])
  ∨ (∃ slot, slot ∈ m
       ∧ loop_body m r st
         = (read r st,
            [send_event (snd_seq_ev_set_pitchbend (channel slot)
                           (pitchbend_value (value (iev (read r st)))))]))
  ∨ (∃ slot vel, slot ∈ m ∧ (vel = 127 ∨ vel = 0)
       ∧ loop_body m r st
         = (read r st,
            [send_event (snd_seq_ev_set_noteon (channel slot) (number slot)
                           vel)]))
  ∨ (∃ slot, slot ∈ m
       ∧ loop_body m r st
         = ({| pgm := to_int (pgm st + 1); iev := iev (read r st) |},
            [send_event (snd_seq_ev_set_pgmchange (channel slot)
                           (to_int (pgm st + 1)))]))
  ∨ (∃ t, t ≠ SND_SEQ_EVENT_PITCHBEND ∧ t ≠ SND_SEQ_EVENT_NOTEON
          ∧ t ≠ SND_SEQ_EVENT_PGMCHANGE
          ∧ (∃ slot, slot ∈ m ∧ t = to_uchar (ev_type slot))
          ∧ loop_body m r st = (read r st, [internal_error t])).
Proof.
  assert (Hp : pgm (read r st) = pgm st) by (destruct r; reflexivity).
  unfold loop_body.
  destruct (classify _ _) as [i |]; [| left; reflexivity].
  destruct (m !! i) as [slot |] eqn:Hm; [| left; reflexivity].
  assert (Hin : slot ∈ m) by (apply list_elem_of_lookup; eauto).
  unfold synthesize. rewrite Hp.
  destruct (Z.eqb_spec (to_uchar (ev_type slot)) SND_SEQ_EVENT_PITCHBEND).
  { right; left. eauto. }
  destruct (Z.eqb_spec (to_uchar (ev_type slot)) SND_SEQ_EVENT_NOTEON).
  { right; right; left. exists slot.
    destruct (_ =? DOWN); [exists 127 | exists 0]; eauto. }
  destruct (Z.eqb_spec (to_uchar (ev_type slot)) SND_SEQ_EVENT_PGMCHANGE).
  { destruct (_ =? 1); [| left; reflexivity].
    right; right; right; left. eauto. }
  right; right; right; right. exists (to_uchar (ev_type slot)).
  repeat split; eauto.
Qed.

Lemma output_nil m st : output m [] st = [].
Proof. reflexivity. Qed.

Lemma output_cons m r rs st :
  output m (r :: rs) st
  = omap sent (snd (loop_body m r st))
    ++ output m rs (fst (loop_body m r st)).
Proof. unfold output. rewrite main_loop_cons. simpl. apply omap_app. Qed.

(** X1. An event that is neither a key nor an axis event, or whose code is
    none of the 22 codes of the switch, is dropped: nothing is sent, nothing
    is printed, the counter stays, whatever the table. *)
Theorem unmapped_event_dropped m e st :
  (type e ≠ EV_KEY ∧ type e ≠ EV_ABS) ∨ code e ∉ slot_code →
  loop_body m (ReadOk e) st = ({| pgm := pgm st; iev := e |}, []).
Proof.
  intros H. unfold loop_body. rewrite read_ok. simpl.
  destruct (classify (type e) (code e)) as [i |] eqn:Hc; [| reflexivity].
  apply classify_iff in Hc as [Hty Hcode].
  destruct H as [[H1 H2] | H].
  - destruct Hty; contradiction.
  - exfalso. apply H. apply list_elem_of_lookup. eauto.
Qed.

Lemma unmapped_event_dropped_witness :
  loop_body map (ReadOk {| type := 0; code := 0; value := 0 |}) (start no_event)
  = ({| pgm := 0; iev := {| type := 0; code := 0; value := 0 |} |}, []).
Proof.
  apply (unmapped_event_dropped map {| type := 0; code := 0; value := 0 |}
           (start no_event)).
  left. simpl. unfold EV_KEY, EV_ABS. lia.
Defined.

(** X2. Whatever the table and the reads, every message the loop sends is a
    note-on, a pitch bend or a program change: it never sends a controller
    message and never a note-off. *)
Theorem sent_message_kinds m rs st :
  Forall (λ ev, seq_type ev = SND_SEQ_EVENT_NOTEON
                ∨ seq_type ev = SND_SEQ_EVENT_PITCHBEND
                ∨ seq_type ev = SND_SEQ_EVENT_PGMCHANGE)
         (output m rs st).
Proof.
  revert st. induction rs as [| r rs IH]; intros st.
  - constructor.
  - rewrite output_cons. apply Forall_app. split; [| apply IH].
    destruct (loop_body_cases m r st)
      as [H | [(slot & _ & H) | [(slot & vel & _ & _ & H)
         | [(slot & _ & H) | (t & _ & _ & _ & _ & H)]]]];
      rewrite H; simpl;
      first [apply Forall_nil_2 | apply Forall_singleton; simpl; auto].
Qed.

(** X3. The loop is one-in, at-most-one-out: a run over n reads sends or
    prints at most n things. *)
Theorem at_most_one_action_per_read m rs st :
  (length (snd (main_loop m rs st)) <= length rs)%nat.
Proof.
  revert st. induction rs as [| r rs IH]; intros st.
  - simpl. lia.
  - rewrite main_loop_cons. simpl. rewrite length_app.
    pose proof (loop_body_at_most_one m r st).
    pose proof (IH (fst (loop_body m r st))). lia.
Qed.

Lemma loop_body_counter m r st :
  INT_MIN <= pgm st < INT_MAX →
  (pgm (fst (loop_body m r st)) = pgm st
   ∧ pgm_values (snd (loop_body m r st)) = [])
  ∨ (pgm (fst (loop_body m r st)) = pgm st + 1
     ∧ pgm_values (snd (loop_body m r st)) = [pgm st + 1]).
Proof.
  intros Hr.
  assert (Hp : pgm (read r st) = pgm st) by (destruct r; reflexivity).
  destruct (loop_body_cases m r st)
    as [H | [(slot & _ & H) | [(slot & vel & _ & _ & H)
       | [(slot & _ & H) | (t & _ & _ & _ & _ & H)]]]];
    rewrite H; simpl; try (left; split; [exact Hp | reflexivity]).
  right. rewrite !(to_int_id (pgm st + 1)) by lia.
  split; reflexivity.
Qed.

(** X4. As long as the counter stays within [int], it only counts up, by one
    for each program change sent: the program numbers sent in a run are the
    consecutive numbers following the counter's value at the start, and the
    counter ends at the last of them. *)
Theorem counter_numbers_consecutive m rs st :
  INT_MIN <= pgm st →
  pgm st + Z.of_nat (length rs) <= INT_MAX →
  pgm st <= pgm (fst (main_loop m rs st)) <= pgm st + Z.of_nat (length rs)
  ∧ pgm_values (snd (main_loop m rs st))
    = seqZ (pgm st + 1) (pgm (fst (main_loop m rs st)) - pgm st).
Proof.
  revert st. induction rs as [| r rs IH]; intros st Hlo Hhi.
  - simpl. split; [lia |]. rewrite Z.sub_diag. reflexivity.
  - rewrite main_loop_cons. simpl fst. simpl snd.
    change (length (r :: rs)) with (S (length rs)) in *.
    unfold pgm_values. rewrite omap_app. fold (pgm_values).
    destruct (loop_body_counter m r st ltac:(lia)) as [[Hp Hv] | [Hp Hv]].
    + destruct (IH (fst (loop_body m r st))) as [Hb Hs];
        [rewrite Hp; lia | rewrite Hp; lia |].
      fold (pgm_values (snd (loop_body m r st))).
      fold (pgm_values (snd (main_loop m rs (fst (loop_body m r st))))).
      rewrite Hv, Hs, Hp. split; [lia | reflexivity].
    + destruct (IH (fst (loop_body m r st))) as [Hb Hs];
        [rewrite Hp; lia | rewrite Hp; lia |].
      fold (pgm_values (snd (loop_body m r st))).
      fold (pgm_values (snd (main_loop m rs (fst (loop_body m r st))))).
      rewrite Hv, Hs, Hp. split; [lia |].
      rewrite (seqZ_cons (pgm st + 1)) by lia. simpl.
      f_equal. f_equal; lia.
Qed.

Lemma counter_numbers_consecutive_witness :
  pgm_values (snd (main_loop map
                     [Key BTN_START 1; Key BTN_START 0; Key BTN_SELECT 1]
                     (start no_event)))
  = seqZ (0 + 1)
      (pgm (fst (main_loop map
                   [Key BTN_START 1; Key BTN_START 0; Key BTN_SELECT 1]
                   (start no_event))) - 0).
Proof.
  refine (proj2 (counter_numbers_consecutive map
                   [Key BTN_START 1; Key BTN_START 0; Key BTN_SELECT 1]
                   (start no_event) _ _)).
  - simpl. unfold INT_MIN. lia.
  - simpl. unfold INT_MAX. lia.
Defined.

(** X5. If every channel in the table is a MIDI channel (0 to 15), the loop
    only ever sends on MIDI channels 0 to 15. *)
Theorem sent_channels_in_range m rs st :
  Forall channel_ok m →
  Forall (λ ev, 0 <= seq_channel ev <= 15) (output m rs st).
Proof.
  intros Hm.
  assert (Hch : ∀ slot, slot ∈ m → 0 <= to_uchar (channel slot) <= 15).
  { intros slot Hin. rewrite Forall_forall in Hm.
    specialize (Hm slot Hin). unfold channel_ok in Hm.
    rewrite to_uchar_id; lia. }
  revert st. induction rs as [| r rs IH]; intros st.
  - constructor.
  - rewrite output_cons. apply Forall_app. split; [| apply IH].
    destruct (loop_body_cases m r st)
      as [H | [(slot & Hin & H) | [(slot & vel & Hin & _ & H)
         | [(slot & Hin & H) | (t & _ & _ & _ & _ & H)]]]];
      rewrite H; simpl;
      first [apply Forall_nil_2
            | apply Forall_singleton; unfold seq_channel; simpl;
              apply Hch, Hin].
Qed.

Lemma map_channels_ok : Forall channel_ok map.
Proof. unfold map, channel_ok. repeat constructor; simpl; lia. Qed.

Lemma sent_channels_in_range_witness :
  Forall (λ ev, 0 <= seq_channel ev <= 15)
         (output map [Key BTN_SOUTH 1; Axis ABS_X 200] (start no_event)).
Proof.
  apply (sent_channels_in_range map [Key BTN_SOUTH 1; Axis ABS_X 200]
           (start no_event)).
  unfold map, channel_ok. repeat constructor; simpl; lia.
Defined.

(** X6. If every entry of the table has a kind the loop has a case for, the
    loop never prints the internal error: all it does is send messages. *)
Theorem known_kinds_no_internal_error m rs st :
  Forall known_kind m →
  Forall (λ a, is_Some (sent a)) (snd (main_loop m rs st)).
Proof.
  intros Hm. revert st. induction rs as [| r rs IH]; intros st.
  - constructor.
  - rewrite main_loop_cons. simpl. apply Forall_app. split; [| apply IH].
    destruct (loop_body_cases m r st)
      as [H | [(slot & _ & H) | [(slot & vel & _ & _ & H)
         | [(slot & _ & H) | (t & H1 & H2 & H3 & (slot & Hin & ->) & H)]]]];
      rewrite H; simpl;
      try first [apply Forall_nil_2 | apply Forall_singleton; simpl; eauto].
    exfalso. rewrite Forall_forall in Hm.
    destruct (Hm slot Hin) as [Hk | [Hk | Hk]]; rewrite Hk in *;
      [apply H2 | apply H1 | apply H3]; reflexivity.
Qed.

Lemma known_kinds_no_internal_error_witness :
  Forall (λ a, is_Some (sent a))
         (snd (main_loop map [Key BTN_SOUTH 1; Key BTN_START 1]
                 (start no_event))).
Proof.
  apply (known_kinds_no_internal_error map
           [Key BTN_SOUTH 1; Key BTN_START 1] (start no_event)).
  unfold map, known_kind.
  repeat (apply Forall_cons_2; [simpl; auto |]). apply Forall_nil_2.
Defined.

(** X7. For the raw values 0 to 255 of an eight-bit axis the pitch-bend value
    lies between -8192 and 8128, so always in the 14-bit range -8192..8191;
    it is 0 exactly at raw value 128, and different raw values give different
    pitch-bend values. *)
Theorem pitchbend_eight_bit_axis v v' :
  0 <= v <= 255 →
  0 <= v' <= 255 →
  -8192 <= pitchbend_value v <= 8128
  ∧ (pitchbend_value v = 0 ↔ v = 128)
  ∧ (pitchbend_value v = pitchbend_value v' → v = v').
Proof.
  intros Hv Hv'.
  rewrite !pitchbend_value_affine
    by (unfold pitchbend_in_int, INT_MIN, INT_MAX; lia).
  lia.
Qed.

Lemma pitchbend_eight_bit_axis_witness :
  -8192 <= pitchbend_value 255 <= 8128.
Proof.
  refine (proj1 (pitchbend_eight_bit_axis 255 0 _ _)); lia.
Defined.

(** * Further properties of the override parser *)

(** [parse_map] puts the entry built from the string into slot [i], or exits
    with status 1 when there is none. *)
Lemma parse_map_entry i s m :
  snd (parse_map i s m)
  = match override_entry s with
    | Some slot => returns (<[i := slot]> m)
    | None => exits 1
    end.
Proof.
  unfold parse_map, override_entry.
  destruct (Scanf.sscanf _); try reflexivity.
  destruct (_ && _); reflexivity.
Qed.

Lemma parse_map_returns_inv i s m m' :
  snd (parse_map i s m) = returns m' →
  ∃ slot, override_entry s = Some slot ∧ m' = <[i := slot]> m.
Proof.
  rewrite parse_map_entry.
  destruct (override_entry s) as [slot |]; [| discriminate].
  intros [= <-]. eauto.
Qed.

Lemma list_ascii_of_string_cons s t l :
  list_ascii_of_string s = t :: l → ∃ rest, s = String t rest.
Proof. destruct s as [| c s]; [discriminate |]. intros [= -> _]. eauto. Qed.

(** What an accepted string puts into the table: a MIDI channel, a number
    that fits [unsigned int], and the kind its first character names. *)
Lemma override_entry_shape s slot :
  override_entry s = Some slot →
  channel_ok slot
  ∧ 0 <= number slot < 2 ^ 32
  ∧ ∃ k rest, s = String k rest
      ∧ ((k = "c"%char ∧ ev_type slot = SND_SEQ_EVENT_CONTROLLER)
         ∨ (k = "n"%char ∧ ev_type slot = SND_SEQ_EVENT_NOTEON)).
Proof.
  unfold override_entry.
  destruct (Scanf.sscanf _) as [| | | | t ch num] eqn:Hs; try discriminate.
  destruct (Z.leb_spec 1 ch), (Z.leb_spec ch 16); simpl; try discriminate.
  intros [= <-]. simpl.
  apply sscanf_3_iff in Hs as (f1 & f2 & rest & Hs & Ht & _ & Hf2 & _).
  split; [unfold channel_ok; simpl; lia |].
  split.
  { destruct Hf2. unfold Scanf.stored, to_uint. apply Z.mod_pos_bound. lia. }
  destruct (list_ascii_of_string_cons _ _ _ Hs) as [rest' ->].
  exists t, rest'. split; [reflexivity |].
  destruct Ht as [-> | ->]; [left | right]; split; reflexivity.
Qed.

(** X8. A successful override changes slot [i] and nothing else: the table
    keeps its size, every other slot keeps its entry, and slot [i] holds an
    entry with a MIDI channel (0 to 15) and a number below 2^32. *)
Theorem parse_map_frame i s m m' :
  snd (parse_map i s m) = returns m' →
  length m' = length m
  ∧ (∀ j, j ≠ i → m' !! j = m !! j)
  ∧ ((i < length m)%nat →
     ∃ slot, m' !! i = Some slot
             ∧ override_entry s = Some slot
             ∧ channel_ok slot
             ∧ 0 <= number slot < 2 ^ 32).
Proof.
  intros H. destruct (parse_map_returns_inv _ _ _ _ H) as (slot & He & ->).
  split; [apply length_insert |].
  split; [intros j Hj; apply list_lookup_insert_ne; congruence |].
  intros Hi. exists slot.
  split; [apply list_lookup_insert_eq, Hi |].
  split; [exact He |].
  destruct (override_entry_shape _ _ He) as (Hc & Hn & _). auto.
Qed.

Lemma parse_map_frame_witness :
  ∃ m', snd (parse_map 2 "n:10:36" map) = returns m'
        ∧ length m' = length map
        ∧ m' !! 5%nat = map !! 5%nat.
Proof.
  eexists. split; [reflexivity |].
  destruct (parse_map_frame 2 "n:10:36" map _ eq_refl) as (Hlen & Hother & _).
  split; [exact Hlen | apply Hother; lia].
Defined.

(** X9. Two overrides of the same slot: the second one wins, as if the first
    had not been given. *)
Theorem parse_map_last_wins i s1 s2 m m1 :
  snd (parse_map i s1 m) = returns m1 →
  snd (parse_map i s2 m1) = snd (parse_map i s2 m).
Proof.
  intros H. destruct (parse_map_returns_inv _ _ _ _ H) as (slot & _ & ->).
  rewrite !parse_map_entry.
  destruct (override_entry s2); [| reflexivity].
  rewrite list_insert_insert_eq. reflexivity.
Qed.

Lemma parse_map_last_wins_witness :
  snd (parse_map 0 "n:2:40" (<[0%nat := {| ev_type := SND_SEQ_EVENT_CONTROLLER;
                                          number := 64; channel := 0 |}]> map))
  = snd (parse_map 0 "n:2:40" map).
Proof.
  apply (parse_map_last_wins 0 "c:1:64" "n:2:40" map). reflexivity.
Defined.

(** X10. Overrides of different slots do not depend on their order. *)
Theorem parse_map_commute i j s1 s2 m m1 m2 :
  i ≠ j →
  snd (parse_map i s1 m) = returns m1 →
  snd (parse_map j s2 m1) = returns m2 →
  ∃ m1', snd (parse_map j s2 m) = returns m1'
         ∧ snd (parse_map i s1 m1') = returns m2.
Proof.
  intros Hij H1 H2.
  destruct (parse_map_returns_inv _ _ _ _ H1) as (slot1 & He1 & ->).
  destruct (parse_map_returns_inv _ _ _ _ H2) as (slot2 & He2 & ->).
  exists (<[j := slot2]> m). rewrite !parse_map_entry, He1, He2.
  split; [reflexivity |].
  f_equal. apply list_insert_insert_ne. exact Hij.
Qed.

Lemma parse_map_commute_witness :
  ∃ m1', snd (parse_map 1 "n:3:41" map) = returns m1'
         ∧ snd (parse_map 0 "n:2:40" m1')
           = snd (parse_map 1 "n:3:41"
                    (<[0%nat := {| ev_type := SND_SEQ_EVENT_NOTEON;
                                   number := 40; channel := 1 |}]> map)).
Proof.
  destruct (parse_map_commute 0 1 "n:2:40" "n:3:41" map _ _
              ltac:(lia) eq_refl eq_refl) as (m1' & H1 & H2).
  exists m1'. split; [exact H1 | exact H2].
Defined.

(** X11. Whether an option string is accepted depends on the string alone,
    not on the slot and not on the table; and a rejection always exits with
    status 1. *)
Theorem parse_map_verdict_by_string i j s m m' :
  (snd (parse_map i s m) = exits 1 ↔ snd (parse_map j s m') = exits 1)
  ∧ (snd (parse_map i s m) = exits 1 ↔ override_entry s = None)
  ∧ ∀ status, snd (parse_map i s m) = exits status → status = 1.
Proof.
  rewrite !parse_map_entry.
  destruct (override_entry s); repeat split; try discriminate; try reflexivity.
  - intros status [= <-]. reflexivity.
Qed.

(** X12. A slot overridden as a controller ([c:...]) is dead: an event for
    that slot sends no message at all; the loop prints its internal error
    with type 10 and goes on. *)
Theorem controller_override_sends_nothing i s rest m m' e st :
  s = String "c" rest →
  snd (parse_map i s m) = returns m' →
  (i < length m)%nat →
  classify (type e) (code e) = Some i →
  loop_body m' (ReadOk e) st
  = ({| pgm := pgm st; iev := e |},
     [internal_error SND_SEQ_EVENT_CONTROLLER]).
Proof.
  intros Hs H Hi Hc.
  destruct (parse_map_returns_inv _ _ _ _ H) as (slot & He & ->).
  destruct (override_entry_shape _ _ He) as (_ & _ & k & rest' & Hk & Hkind).
  rewrite Hs in Hk. injection Hk as <- _.
  destruct Hkind as [[_ Hty] | [Hk _]]; [| discriminate Hk].
  rewrite (loop_body_mapped _ _ _ i slot Hc)
    by (apply list_lookup_insert_eq, Hi).
  unfold synthesize. rewrite Hty. reflexivity.
Qed.

Lemma controller_override_sends_nothing_witness :
  loop_body (<[0%nat := {| ev_type := SND_SEQ_EVENT_CONTROLLER;
                           number := 64; channel := 0 |}]> map)
    (Key BTN_NORTH 1) (start no_event)
  = ({| pgm := 0; iev := {| type := EV_KEY; code := BTN_NORTH; value := 1 |} |},
     [internal_error SND_SEQ_EVENT_CONTROLLER]).
Proof.
  apply (controller_override_sends_nothing 0 "c:1:64" ":1:64" map _
           {| type := EV_KEY; code := BTN_NORTH; value := 1 |}
           (start no_event) eq_refl eq_refl).
  - simpl. lia.
  - reflexivity.
Defined.

(** X13. A slot overridden as a note ([n:...]) plays: an event for that slot
    sends one note-on on the stored channel, with velocity 127 for raw value
    1 and 0 otherwise, and with the stored number reduced modulo 256 as its
    note, since the note member is an [unsigned char]. *)
Theorem note_override_played i s rest m m' e st :
  s = String "n" rest →
  snd (parse_map i s m) = returns m' →
  (i < length m)%nat →
  classify (type e) (code e) = Some i →
  ∃ slot,
    m' !! i = Some slot
    ∧ channel_ok slot
    ∧ loop_body m' (ReadOk e) st
      = ({| pgm := pgm st; iev := e |},
         [send_event (NoteOn (channel slot) (number slot mod 256)
                             (if value e =? 1 then 127 else 0))]).
Proof.
  intros Hs H Hi Hc.
  destruct (parse_map_returns_inv _ _ _ _ H) as (slot & He & ->).
  destruct (override_entry_shape _ _ He) as (Hch & _ & k & rest' & Hk & Hkind).
  rewrite Hs in Hk. injection Hk as <- _.
  destruct Hkind as [[Hk _] | [_ Hty]]; [discriminate Hk |].
  assert (Hm : <[i := slot]> m !! i = Some slot)
    by (apply list_lookup_insert_eq, Hi).
  exists slot. split; [exact Hm |]. split; [exact Hch |].
  rewrite (loop_body_mapped _ _ _ i slot Hc Hm).
  unfold synthesize. rewrite Hty. simpl.
  unfold snd_seq_ev_set_noteon, NoteOn, DOWN.
  rewrite (to_uchar_id (channel slot)) by (unfold channel_ok in Hch; lia).
  destruct (value e =? 1); reflexivity.
Qed.

Lemma note_override_played_witness :
  ∃ slot,
    <[1%nat := {| ev_type := SND_SEQ_EVENT_NOTEON; number := 300;
                  channel := 1 |}]> map !! 1%nat = Some slot
    ∧ loop_body (<[1%nat := {| ev_type := SND_SEQ_EVENT_NOTEON; number := 300;
                               channel := 1 |}]> map)
        (Key BTN_SOUTH 1) (start no_event)
      = ({| pgm := 0;
            iev := {| type := EV_KEY; code := BTN_SOUTH; value := 1 |} |},
         [send_event (NoteOn (channel slot) (number slot mod 256) 127)]).
Proof.
  destruct (note_override_played 1 "n:2:300" ":2:300" map _
              {| type := EV_KEY; code := BTN_SOUTH; value := 1 |}
              (start no_event) eq_refl eq_refl ltac:(simpl; lia) eq_refl)
    as (slot & Hm & _ & Hb).
  exists slot. split; [exact Hm | exact Hb].
Defined.

(** * Properties of the start-up *)

(** ** [get_args] *)

Lemma button_case_returns i a g k g' :
  snd (button_case i a g k) = returns g' →
  ∃ slot, override_entry a = Some slot
          ∧ snd (k (with_map g (<[i := slot]> (cur_map g)))) = returns g'.
Proof.
  unfold button_case.
  pose proof (parse_map_entry i a (cur_map g)) as He.
  destruct (parse_map i a (cur_map g)) as [log r]. simpl in He. subst r.
  destruct (override_entry a) as [slot |]; [| discriminate].
  destruct (k _) as [log' r'] eqn:Hk. simpl. intros ->.
  exists slot. rewrite Hk. auto.
Qed.

Lemma button_case_exits i a g k status :
  snd (button_case i a g k) = exits status →
  (override_entry a = None ∧ status = 1)
  ∨ (∃ slot, override_entry a = Some slot
             ∧ snd (k (with_map g (<[i := slot]> (cur_map g))))
               = exits status).
Proof.
  unfold button_case.
  pose proof (parse_map_entry i a (cur_map g)) as He.
  destruct (parse_map i a (cur_map g)) as [log r]. simpl in He. subst r.
  destruct (override_entry a) as [slot |].
  - destruct (k _) as [log' r'] eqn:Hk. simpl. intros ->. right.
    exists slot. rewrite Hk. auto.
  - simpl. intros [= <-]. left. auto.
Qed.

(** X14. When [get_args] returns, the table has its size, the slots from 3
    on are as they were (only the first three can be overridden), and if all
    channels of the table were MIDI channels they still are. *)
Theorem get_args_table_frame opts g g' :
  snd (get_args opts g) = returns g' →
  length (cur_map g') = length (cur_map g)
  ∧ (∀ j, (3 <= j)%nat → cur_map g' !! j = cur_map g !! j)
  ∧ (Forall channel_ok (cur_map g) → Forall channel_ok (cur_map g')).
Proof.
  revert g. induction opts as [| o opts IH]; intros g.
  - simpl. intros [= <-]. auto.
  - assert (Hb : ∀ i a, (i < 3)%nat →
      snd (button_case i a g (get_args opts)) = returns g' →
      length (cur_map g') = length (cur_map g)
      ∧ (∀ j, (3 <= j)%nat → cur_map g' !! j = cur_map g !! j)
      ∧ (Forall channel_ok (cur_map g) → Forall channel_ok (cur_map g'))).
    { intros i a Hi H.
      apply button_case_returns in H as (slot & He & H).
      destruct (IH _ H) as (Hlen & Hfr & Hch). simpl in *.
      split; [rewrite Hlen; apply length_insert |].
      split.
      - intros j Hj. rewrite (Hfr j Hj).
        apply list_lookup_insert_ne. lia.
      - intros Hok. apply Hch. apply Forall_insert; [exact Hok |].
        apply (override_entry_shape _ _ He). }
    destruct o; simpl; try (intros H; apply (IH _ H)).
    + discriminate.
    + apply Hb. lia.
    + apply Hb. lia.
    + apply Hb. lia.
Qed.

Lemma get_args_table_frame_witness :
  ∃ g', snd (get_args [opt_v; opt_1 "c:1:64"; opt_3 "n:16:36"] globals_init)
        = returns g'
        ∧ length (cur_map g') = length (cur_map globals_init)
        ∧ cur_map g' !! 3%nat = cur_map globals_init !! 3%nat.
Proof.
  eexists. split; [reflexivity |].
  destruct (get_args_table_frame
              [opt_v; opt_1 "c:1:64"; opt_3 "n:16:36"] globals_init _ eq_refl)
    as (Hlen & Hfr & _).
  split; [exact Hlen | apply Hfr; lia].
Defined.

(** X15. [get_args] returns exactly when no [-h] is among the options and
    every mapping option carries a string [parse_map] accepts. *)
Theorem get_args_returns_iff opts g :
  (∃ g', snd (get_args opts g) = returns g')
  ↔ (opt_h ∉ opts)
    ∧ ∀ o i a, o ∈ opts → button_slot o = Some (i, a) →
               is_Some (override_entry a).
Proof.
  revert g. induction opts as [| o opts IH]; intros g.
  - simpl. split.
    + intros _. split; [apply not_elem_of_nil |].
      intros o i a Hin. apply elem_of_nil in Hin. contradiction.
    + intros _. eauto.
  - assert (Hrest : ∀ g1,
      o ≠ opt_h → button_slot o = None →
      ((∃ g', snd (get_args opts g1) = returns g')
       ↔ (opt_h ∉ o :: opts)
         ∧ ∀ o' i a, o' ∈ o :: opts → button_slot o' = Some (i, a) →
                     is_Some (override_entry a))).
    { intros g1 Hh Hb. rewrite (IH g1). split.
      - intros [Hnh Hall]. split.
        + rewrite not_elem_of_cons. auto.
        + intros o' i a Hin Hs. apply elem_of_cons in Hin as [-> | Hin];
            [congruence | eauto].
      - intros [Hnh Hall]. apply not_elem_of_cons in Hnh as [_ Hnh].
        split; [exact Hnh |]. intros o' i a Hin. apply Hall.
        apply elem_of_cons. auto. }
    assert (Hbut : ∀ i a,
      o ≠ opt_h → button_slot o = Some (i, a) →
      ((∃ g', snd (button_case i a g (get_args opts)) = returns g')
       ↔ (opt_h ∉ o :: opts)
         ∧ ∀ o' i' a', o' ∈ o :: opts → button_slot o' = Some (i', a') →
                       is_Some (override_entry a'))).
    { intros i a Hh Hb. split.
      - intros [g' H]. apply button_case_returns in H as (slot & He & H).
        destruct (proj1 (IH _) (ex_intro _ g' H)) as [Hnh Hall]. split.
        + rewrite not_elem_of_cons. auto.
        + intros o' i' a' Hin Hs. apply elem_of_cons in Hin as [-> | Hin].
          * rewrite Hb in Hs. injection Hs as <- <-. rewrite He. eauto.
          * eauto.
      - intros [Hnh Hall]. apply not_elem_of_cons in Hnh as [_ Hnh].
        destruct (Hall o i a) as [slot He]; [left | exact Hb |].
        destruct (proj2 (IH (with_map g (<[i := slot]> (cur_map g)))))
          as [g' H].
        { split; [exact Hnh |]. intros o' i' a' Hin. apply Hall.
          apply elem_of_cons. auto. }
        exists g'. unfold button_case.
        pose proof (parse_map_entry i a (cur_map g)) as Hp.
        destruct (parse_map i a (cur_map g)) as [log r]. simpl in Hp.
        subst r. rewrite He.
        destruct (get_args opts _) as [log' r']. exact H. }
    destruct o; simpl get_args;
      try (apply Hrest; [discriminate | reflexivity]);
      try (apply Hbut; [discriminate | reflexivity]).
    simpl. split.
    + intros [g' H]. discriminate H.
    + intros [Hnh _]. exfalso. apply Hnh. left.
Qed.

(** X16. When [get_args] exits, the status is 0 and a [-h] was given, or the
    status is 1 and one of the mapping options carries a string that
    [parse_map] rejects. *)
Theorem get_args_exit_status opts g status :
  snd (get_args opts g) = exits status →
  (status = 0 ∧ opt_h ∈ opts)
  ∨ (status = 1
     ∧ ∃ o i a, o ∈ opts ∧ button_slot o = Some (i, a)
                ∧ override_entry a = None).
Proof.
  revert g. induction opts as [| o opts IH]; intros g.
  - discriminate.
  - assert (Hlift :
      (status = 0 ∧ opt_h ∈ opts)
      ∨ (status = 1
         ∧ ∃ o' i a, o' ∈ opts ∧ button_slot o' = Some (i, a)
                     ∧ override_entry a = None) →
      (status = 0 ∧ opt_h ∈ o :: opts)
      ∨ (status = 1
         ∧ ∃ o' i a, o' ∈ o :: opts ∧ button_slot o' = Some (i, a)
                     ∧ override_entry a = None)).
    { intros [[H0 Hin] | (H1 & o' & i & a & Hin & Hb & He)].
      - left. split; [exact H0 | right; exact Hin].
      - right. split; [exact H1 |]. exists o', i, a.
        split; [right; exact Hin | auto]. }
    assert (Hbut : ∀ i a, button_slot o = Some (i, a) →
      snd (button_case i a g (get_args opts)) = exits status →
      (status = 0 ∧ opt_h ∈ o :: opts)
      ∨ (status = 1
         ∧ ∃ o' i' a', o' ∈ o :: opts ∧ button_slot o' = Some (i', a')
                       ∧ override_entry a' = None)).
    { intros i a Hb H.
      apply button_case_exits in H as [[He ->] | (slot & _ & H)].
      - right. split; [reflexivity |]. exists o, i, a.
        split; [left | auto].
      - apply Hlift, (IH _ H). }
    destruct o; simpl get_args;
      try (intros H; apply Hlift, (IH _ H));
      try (apply Hbut; reflexivity).
    intros [= <-]. left. split; [reflexivity | left].
Qed.

Lemma get_args_exit_status_witness :
  (1 = 0 ∧ opt_h ∈ [opt_z; opt_2 "n:17:36"; opt_h])
  ∨ (1 = 1
     ∧ ∃ o i a, o ∈ [opt_z; opt_2 "n:17:36"; opt_h]
                ∧ button_slot o = Some (i, a)
                ∧ override_entry a = None).
Proof.
  apply (get_args_exit_status [opt_z; opt_2 "n:17:36"; opt_h]
           globals_init 1).
  reflexivity.
Defined.

(** ** The macros and [init_mouse] *)

(** Masking with [1 << k] tests bit [k]. *)
Lemma land_shiftl_1_eqb b k :
  0 <= k → (Z.land b (Z.shiftl 1 k) =? 0) = negb (Z.testbit b k).
Proof.
  intros Hk. rewrite Z.shiftl_1_l.
  destruct (Z.testbit b k) eqn:Hb; simpl.
  - apply Z.eqb_neq. intros H0.
    assert (Hbit : Z.testbit (Z.land b (2 ^ k)) k = true).
    { rewrite Z.land_spec, Hb, Z.pow2_bits_true by lia. reflexivity. }
    rewrite H0, Z.bits_0 in Hbit. discriminate.
  - apply Z.eqb_eq. apply Z.bits_inj'. intros n Hn.
    rewrite Z.land_spec, Z.bits_0, Z.pow2_bits_eqb by lia.
    destruct (Z.eqb_spec k n) as [<- |].
    + rewrite Hb. reflexivity.
    + apply andb_false_r.
Qed.

(** Bit [bit] of the bitmap is bit [bit mod 8] of byte [bit / 8]. *)
Lemma bitmap_value_testbit array : ∀ bit,
  Forall (λ b, 0 <= b < 256) array →
  0 <= bit →
  Z.testbit (bitmap_value array) bit
  = match array !! Z.to_nat (bit / 8) with
    | Some b => Z.testbit b (bit mod 8)
    | None => false
    end.
Proof.
  induction array as [| b array IH]; intros bit Hall Hbit.
  - simpl. apply Z.bits_0.
  - apply Forall_cons in Hall as [Hb Hall]. simpl bitmap_value.
    destruct (Z.lt_ge_cases bit 8) as [Hlt | Hge].
    + rewrite (Z.div_small bit 8), (Z.mod_small bit 8) by lia. simpl.
      rewrite <- (Z.mod_pow2_bits_low (b + 2 ^ 8 * bitmap_value array) 8 bit)
        by lia.
      replace (b + 2 ^ 8 * bitmap_value array)
        with (b + bitmap_value array * 2 ^ 8) by lia.
      rewrite Z.mod_add by lia.
      rewrite Z.mod_small by lia. reflexivity.
    + replace bit with ((bit - 8) + 8) at 1 by lia.
      rewrite <- (Z.div_pow2_bits _ 8 (bit - 8)) by lia.
      replace (b + 2 ^ 8 * bitmap_value array)
        with (b + bitmap_value array * 2 ^ 8) by lia.
      rewrite Z.div_add by lia.
      rewrite (Z.div_small b) by lia. rewrite Z.add_0_l.
      rewrite IH by (assumption || lia).
      replace (bit / 8) with ((bit - 8) / 8 + 1)
        by (rewrite <- (Z.div_add (bit - 8) 1 8) by lia; f_equal; lia).
      replace (bit mod 8) with ((bit - 8) mod 8)
        by (rewrite <- (Z.mod_add (bit - 8) 1 8) by lia; f_equal; lia).
      assert (H0 : 0 <= (bit - 8) / 8) by (apply Z.div_pos; lia).
      rewrite Z2Nat.inj_add by lia.
      change (Z.to_nat 1) with 1%nat. rewrite Nat.add_1_r. reflexivity.
Qed.

Lemma testbit_macro_eqb bit array :
  Forall (λ b, 0 <= b < 256) array →
  0 <= bit →
  (Macros.testbit bit array =? 0) = negb (Z.testbit (bitmap_value array) bit).
Proof.
  intros Hall Hbit. unfold Macros.testbit.
  rewrite Z.quot_div_nonneg, Z.rem_mod_nonneg by lia.
  rewrite bitmap_value_testbit by assumption.
  destruct (array !! Z.to_nat (bit / 8)) as [b |]; [| reflexivity].
  apply land_shiftl_1_eqb. apply Z.mod_pos_bound. lia.
Qed.

(** X17. On an array of bytes, [testbit(bit, array)] is non-zero exactly
    when bit number [bit] is set in the bitmap the array holds, least
    significant byte first. *)
Theorem testbit_reads_bitmap bit array :
  Forall (λ b, 0 <= b < 256) array →
  0 <= bit < 8 * Z.of_nat (length array) →
  Macros.testbit bit array ≠ 0 ↔ Z.testbit (bitmap_value array) bit = true.
Proof.
  intros Hall Hbit.
  pose proof (testbit_macro_eqb bit array Hall ltac:(lia)) as H.
  destruct (Z.eqb_spec (Macros.testbit bit array) 0) as [H0 | H0];
    destruct (Z.testbit (bitmap_value array) bit); simpl in H;
    try discriminate H; split; congruence.
Qed.

Lemma testbit_reads_bitmap_witness :
  Macros.testbit 11 [0; 8; 0; 0] ≠ 0
  ↔ Z.testbit (bitmap_value [0; 8; 0; 0]) 11 = true.
Proof.
  apply (testbit_reads_bitmap 11 [0; 8; 0; 0]).
  - repeat (apply Forall_cons_2; [lia |]). apply Forall_nil_2.
  - simpl. lia.
Defined.

(** X18. [init_mouse] returns exactly when the device reports both key
    events and absolute axes in its capability bitmap and the exclusive grab
    succeeds; in every other case the process exits with status 1. *)
Theorem init_mouse_accepts dev evt grab :
  Forall (λ b, 0 <= b < 256) evt →
  length evt = 4%nat →
  (snd (init_mouse dev evt grab) = returns tt
   ↔ Z.testbit (bitmap_value evt) EV_KEY = true
     ∧ Z.testbit (bitmap_value evt) EV_ABS = true
     ∧ grab = 0)
  ∧ (snd (init_mouse dev evt grab) ≠ returns tt →
     snd (init_mouse dev evt grab) = exits 1).
Proof.
  intros Hall Hlen. unfold init_mouse.
  rewrite !testbit_macro_eqb by (assumption || (unfold EV_KEY, EV_ABS; lia)).
  rewrite !negb_involutive.
  destruct (Z.testbit (bitmap_value evt) EV_KEY),
           (Z.testbit (bitmap_value evt) EV_ABS),
           (Z.eqb_spec grab 0); simpl;
    (split; [split; [intros H; try discriminate H; auto
                    | intros (H1 & H2 & H3);
                      try discriminate H1; try discriminate H2;
                      try contradiction; reflexivity]
            | intros H; try reflexivity; exfalso; apply H; reflexivity]).
Qed.

Lemma init_mouse_accepts_witness :
  snd (init_mouse "/dev/input/event2" [11; 0; 32; 0] 0) = returns tt
  ↔ Z.testbit (bitmap_value [11; 0; 32; 0]) EV_KEY = true
    ∧ Z.testbit (bitmap_value [11; 0; 32; 0]) EV_ABS = true
    ∧ 0 = 0.
Proof.
  refine (proj1 (init_mouse_accepts "/dev/input/event2" [11; 0; 32; 0] 0 _ _)).
  - repeat (apply Forall_cons_2; [lia |]). apply Forall_nil_2.
  - reflexivity.
Defined.

(** X19. The macro named [min] yields the larger of its arguments and the
    macro named [max] the smaller, so that [max(min(x, lo), hi)] clamps [x]
    into the interval from [lo] to [hi]. *)
Theorem min_max_macros_clamp x lo hi :
  lo <= hi →
  Macros.min x lo = Z.max x lo
  ∧ Macros.max x hi = Z.min x hi
  ∧ lo <= Macros.max (Macros.min x lo) hi <= hi
  ∧ (lo <= x <= hi → Macros.max (Macros.min x lo) hi = x).
Proof.
  intros Hle. unfold Macros.min, Macros.max.
  destruct (Z.ltb_spec x lo);
    repeat match goal with
           | |- context [?a >? ?b] => destruct (Z.gtb_spec a b)
           end; lia.
Qed.

Lemma min_max_macros_clamp_witness :
  0 <= Macros.max (Macros.min 300 0) 127 <= 127.
Proof.
  refine (proj1 (proj2 (proj2 (min_max_macros_clamp 300 0 127 _)))). lia.
Defined.

(** * Further edge cases *)

(** X20. The uninitialised buffer is never looked at when the first read
    succeeds: the whole run is then the same whatever the buffer held. *)
Theorem first_read_hides_buffer m e rs p iev0 iev1 :
  main_loop m (ReadOk e :: rs) {| pgm := p; iev := iev0 |}
  = main_loop m (ReadOk e :: rs) {| pgm := p; iev := iev1 |}.
Proof.
  rewrite !main_loop_cons.
  assert (H : loop_body m (ReadOk e) {| pgm := p; iev := iev0 |}
              = loop_body m (ReadOk e) {| pgm := p; iev := iev1 |})
    by reflexivity.
  rewrite H. reflexivity.
Qed.

(** X21. A [%u] field takes a number with a minus sign: a plain digit string
    below 2^32 is stored as its value, and with a minus sign before it the
    value stored is 2^32 minus the number, so "-1" is stored as
    4294967295. *)
Theorem conv_u_signed ds rest :
  ds ≠ [] →
  Forall (λ c, Scanf.isdigit c = true) ds →
  Scanf.no_digit_ahead rest →
  0 < Scanf.decimal ds < 2 ^ 32 →
  Scanf.conv_u (ds ++ rest) = Some (Scanf.decimal ds, rest)
  ∧ Scanf.conv_u ("-"%char :: ds ++ rest)
    = Some (2 ^ 32 - Scanf.decimal ds, rest).
Proof.
  intros Hne Hds Hr Hv. split.
  - pose proof (Scanf.uint_field_intro [] [] false ds
                  (Forall_nil_2 _) Scanf.sign_none Hne Hds) as Hf.
    simpl in Hf. rewrite (conv_u_field _ _ rest Hf Hr).
    rewrite stored_plain by lia. reflexivity.
  - pose proof (Scanf.uint_field_intro [] ["-"%char] true ds
                  (Forall_nil_2 _) Scanf.sign_minus Hne Hds) as Hf.
    simpl in Hf. change ("-"%char :: ds ++ rest)
      with (("-"%char :: ds) ++ rest).
    rewrite (conv_u_field _ _ rest Hf Hr).
    rewrite stored_wraps by lia.
    replace (- Scanf.decimal ds)
      with ((2 ^ 32 - Scanf.decimal ds) + (-1) * 2 ^ 32) by lia.
    rewrite Z.mod_add by lia. rewrite Z.mod_small by lia. reflexivity.
Qed.

Lemma conv_u_signed_witness :
  Scanf.conv_u ["-"%char; "1"%char]
  = Some (2 ^ 32 - Scanf.decimal ["1"%char], []).
Proof.
  refine (proj2 (conv_u_signed ["1"%char] [] _ _ _ _)).
  - discriminate.
  - repeat constructor.
  - exact I.
  - vm_compute. split; reflexivity.
Defined.
